(** * Snake game (src/main.cpp): the simulation core, embedded and verified

    The development follows the source: the globals of [main.cpp] become
    the fields of one [State] record; [processInput], [spawnFood] and the
    body of the rendering loop become functions on that record.

    Modelling conventions.
    - [float] coordinates, times and intervals are exact rationals ([Q]).
      Every coordinate the game produces is a multiple of 0.5 below 2^10;
      sums, differences and squared distances of such numbers are exact in
      binary32.
    - [glm::distance (a, b) < t] with [t >= 0] is the comparison of the
      squared distance with [t * t]: the square root is monotone, and the
      thresholds 2.5, 20 and 40 are the exact roots of their squares.
    - [rand ()] is an oracle: a finite supply [list N] of its successive
      results.  A computation that asks for more results than the supply
      holds yields [None]; this is how the unbounded [do ... while] of
      [spawnFood] is given a total model.
    - [int] counters are unbounded integers ([Z]): the score is at most
      twice the number of growth events, each of which appends at least 25
      segments to the vector, so it stays far from the 32-bit range.
    - [Square& head = snake[0]] refers to the first cell of the storage
      the vector has at line 233.  The storage is that of libstdc++: a
      [push_back] onto a full vector moves the cells to a storage twice as
      large and frees the old one ([capacity]).  Up to the pushes of the
      small-food step a read of [head] is a read of [snake[0]]; the read at
      line 306 is one as long as these pushes fit the storage, and is
      undefined once they have moved it.  The model then lets the read
      yield a position [stale] that the functions of the tick take as an
      argument; the theorems hold for every such position.
    - [glfwGetKey] answers [GLFW_PRESS] or [GLFW_RELEASE]: a [bool].
    - What a round draws is the list of the calls of [drawSquare], each
      with what it hands to the pipeline ([render]); the background, the
      set-up of buffers, shaders and textures and the console output of
      [spawnFood] are left out.  The score printed at game over is the
      second component of [frame]. *)

From Stdlib Require Import ZArith QArith Qround Lia Lqa Bool.
From stdpp Require Import base option list.

(** ** Data model *)

(** [enum Direction { UP, DOWN, LEFT, RIGHT }] *)
Inductive Direction : Set := UP | DOWN | LEFT | RIGHT.

(** [a != b] on directions *)
Definition Direction_neb (a b : Direction) : bool :=
  match a, b with
  | UP, UP | DOWN, DOWN | LEFT, LEFT | RIGHT, RIGHT => false
  | _, _ => true
  end.

Module glm.

(** [glm::vec2] *)
Record vec2 : Set := mk { x : Q; y : Q }.

Definition sq (a : Q) : Q := a * a.

(** squared Euclidean distance, [dot (a - b, a - b)] *)
Definition distance2 (a b : vec2) : Q :=
  sq (x a - x b) + sq (y a - y b).

(** [glm::distance (a, b) < t], for a threshold [t >= 0] *)
Definition distance_lt (a b : vec2) (t : Q) : bool :=
  negb (Qle_bool (sq t) (distance2 a b)).

End glm.

(** [struct Square { glm::vec2 position; Direction direction; }] *)
Record Square : Set := mkSquare {
  position : glm.vec2;
  direction : Direction
}.

(** A zero-initialised global [Square]. *)
Definition Square_zero : Square :=
  {| position := {| glm.x := 0; glm.y := 0 |}; direction := UP |}.

(** ** Constants *)

Definition windowWIDTH : Q := 800.
Definition windowHEIGHT : Q := 600.
Definition SQUARE_SIZE : Q := 20.
Definition WALL_THICKNESS : Q := 60.
Definition MOVE_STRIDE : Q := 2.5.
(** [float game_speed_controller = GAME_SPEED], never written afterwards *)
Definition game_speed_controller : Q := 0.012.

(** Comparisons and conversions of the source. *)
Definition Qltb (a b : Q) : bool := negb (Qle_bool b a).
Definition Qgeb (a b : Q) : bool := Qle_bool b a.
Definition Qgtb (a b : Q) : bool := negb (Qle_bool a b).

(** [int (q)]: truncation towards zero *)
Definition to_int (q : Q) : Z := Z.quot (Qnum q) (Z.pos (Qden q)).

(** ** Snake model *)

(** The body of the shifting loop: [snake[i].position = snake[i-1].position;
    snake[i].direction = snake[i-1].direction]. *)
Definition shift_at (i : nat) (v : list Square) : list Square :=
  match v !! (i - 1)%nat with
  | Some prev =>
      <[ i := {| position := position prev; direction := direction prev |} ]> v
  | None => v
  end.

(** [for (int i = ...; i > 0; i--)], entered with the given [i] *)
Fixpoint shift_loop (i : nat) (v : list Square) : list Square :=
  match i with
  | O => v
  | S j => shift_loop j (shift_at (S j) v)
  end.

(** The loop starts at [snake.size () - 1].  On an empty vector that is -1
    as an [int] and the loop does not run; the truncated subtraction gives
    0, with the same effect. *)
Definition shift (v : list Square) : list Square :=
  shift_loop (length v - 1) v.

(** The [switch (head.direction)] of the loop body. *)
Definition move (d : Direction) (p : glm.vec2) : glm.vec2 :=
  match d with
  | UP => {| glm.x := glm.x p; glm.y := glm.y p + MOVE_STRIDE |}
  | DOWN => {| glm.x := glm.x p; glm.y := glm.y p - MOVE_STRIDE |}
  | LEFT => {| glm.x := glm.x p - MOVE_STRIDE; glm.y := glm.y p |}
  | RIGHT => {| glm.x := glm.x p + MOVE_STRIDE; glm.y := glm.y p |}
  end.

(** [head.direction = currentDirection] followed by the switch.  On an empty
    vector [snake[0]] is undefined in the source; the model leaves the
    vector alone. *)
Definition moveHead (d : Direction) (v : list Square) : list Square :=
  match v !! 0%nat with
  | Some head =>
      <[ 0%nat := {| position := move d (position head); direction := d |} ]> v
  | None => v
  end.

(** Lines 222-254: the movement of one tick. *)
Definition advance (d : Direction) (v : list Square) : list Square :=
  moveHead d (shift v).

(** [snake.push_back (sq)] *)
Definition push_back (sq : Square) (v : list Square) : list Square :=
  v ++ [sq].

(** [for (int i = 0; i < n; i++) snake.push_back (newSegment)] *)
Fixpoint push_back_n (n : nat) (newSegment : Square) (v : list Square)
  : list Square :=
  match n with
  | O => v
  | S k => push_back_n k newSegment (push_back newSegment v)
  end.

(** [Square newSegment = snake.back ()] and the loop of [n] pushes.
    [back ()] of an empty vector is undefined; the model leaves it alone. *)
Definition grow (n : nat) (v : list Square) : list Square :=
  match last v with
  | Some newSegment => push_back_n n newSegment v
  | None => v
  end.

(** ** The storage of the vector *)

(** [snake.capacity ()] after [n] calls of [push_back] on the empty vector,
    the only way the snake is ever built.  The vector is that of libstdc++
    (the file header names g++): a [push_back] onto a full vector moves the
    cells to a storage twice as large (of one cell when there was none). *)
Fixpoint capacity (n : nat) : nat :=
  match n with
  | O => O
  | S m => let c := capacity m in
           if (m =? c)%nat then Nat.max 1 (2 * c) else c
  end.

(** Do [k] more calls of [push_back] on a vector of [n] cells move its
    storage?  If so, every reference taken into the vector before them
    dangles afterwards. *)
Definition reallocates (n k : nat) : bool := (capacity n <? n + k)%nat.

(** [head.position]; the origin stands in for the undefined read on an
    empty vector. *)
Definition head_position (v : list Square) : glm.vec2 :=
  match v !! 0%nat with
  | Some head => position head
  | None => position Square_zero
  end.

(** Lines 257-260: the four wall tests. *)
Definition hitsWall (p : glm.vec2) : bool :=
  Qltb (glm.x p) (0 + WALL_THICKNESS)
  || Qgeb (glm.x p) (windowWIDTH - WALL_THICKNESS)
  || Qltb (glm.y p) (0 + WALL_THICKNESS - 17.0)
  || Qgeb (glm.y p) (windowHEIGHT - WALL_THICKNESS).

(** Lines 271-277: the scan of the body, leaving at the first hit. *)
Fixpoint collides (head : glm.vec2) (body : list Square) : bool :=
  match body with
  | [] => false
  | seg :: rest =>
      if glm.distance_lt head (position seg) MOVE_STRIDE then true
      else collides head rest
  end.

(** [for (size_t i = 1; i < snake.size (); ++i)] over the current vector *)
Definition selfCollision (v : list Square) : bool :=
  collides (head_position v) (drop 1 v).

(** ** The random oracle *)

Definition Rand (A : Type) : Type := list N -> option (A * list N).

Definition ret {A : Type} (a : A) : Rand A := fun rs => Some (a, rs).

Definition bind {A B : Type} (m : Rand A) (k : A -> Rand B) : Rand B :=
  fun rs =>
    match m rs with
    | Some (a, rs') => k a rs'
    | None => None
    end.

Notation "x <- m ;; k" := (bind m (fun x => k))
  (at level 100, m at next level, right associativity).

(** ** Food spawner *)

(** Lines 561-570: is the candidate at least a segment size away from every
    segment? *)
Fixpoint validPosition (v : list Square) (newPosition : glm.vec2) : bool :=
  match v with
  | [] => true
  | segment :: rest =>
      if glm.distance_lt (position segment) newPosition SQUARE_SIZE then false
      else validPosition rest newPosition
  end.

(** One candidate from two results of [rand ()] (lines 553-556). *)
Definition candidate (r1 r2 : N) : glm.vec2 :=
  let newX :=
    (to_int (WALL_THICKNESS + 40.0)
     + Z.rem (Z.of_N r1)
         (to_int windowWIDTH - 2 * to_int (WALL_THICKNESS + 2 * SQUARE_SIZE)
          + 1))%Z in
  let newY :=
    (to_int (WALL_THICKNESS + 40.0)
     + Z.rem (Z.of_N r2)
         (to_int windowHEIGHT - 2 * to_int (WALL_THICKNESS + 2 * SQUARE_SIZE)
          + 1))%Z in
  {| glm.x := inject_Z newX; glm.y := inject_Z newY |}.

(** The [do ... while (!validPosition)] loop.  Each round draws two numbers;
    the loop ends at the first valid candidate. *)
Fixpoint spawn (v : list Square) (rs : list N) : option (glm.vec2 * list N) :=
  match rs with
  | r1 :: r2 :: rs' =>
      let newPosition := candidate r1 r2 in
      if validPosition v newPosition then Some (newPosition, rs')
      else spawn v rs'
  | _ => None
  end.

(** ** Game state: the globals and the two [static] flags of
    [processInput] *)

Record State : Type := mkState {
  GAME_SPEED : Q;
  score : Z;
  bigFoodOnScreen : bool;
  smallFoodOnScreen : bool;
  smallFoodEaten : Z;
  lastMoveTime : Q;
  gameOver : bool;
  snake : list Square;
  smallFood : Square;
  bigFood : Square;
  currentDirection : Direction;
  nextDirection : Direction;
  spacePressed : bool;
  ctrlPressed : bool
}.

Definition set_GAME_SPEED (a : Q) (s : State) : State :=
  mkState a (score s) (bigFoodOnScreen s) (smallFoodOnScreen s)
    (smallFoodEaten s) (lastMoveTime s) (gameOver s) (snake s) (smallFood s)
    (bigFood s) (currentDirection s) (nextDirection s) (spacePressed s)
    (ctrlPressed s).

Definition set_score (a : Z) (s : State) : State :=
  mkState (GAME_SPEED s) a (bigFoodOnScreen s) (smallFoodOnScreen s)
    (smallFoodEaten s) (lastMoveTime s) (gameOver s) (snake s) (smallFood s)
    (bigFood s) (currentDirection s) (nextDirection s) (spacePressed s)
    (ctrlPressed s).

Definition set_bigFoodOnScreen (a : bool) (s : State) : State :=
  mkState (GAME_SPEED s) (score s) a (smallFoodOnScreen s)
    (smallFoodEaten s) (lastMoveTime s) (gameOver s) (snake s) (smallFood s)
    (bigFood s) (currentDirection s) (nextDirection s) (spacePressed s)
    (ctrlPressed s).

Definition set_smallFoodOnScreen (a : bool) (s : State) : State :=
  mkState (GAME_SPEED s) (score s) (bigFoodOnScreen s) a
    (smallFoodEaten s) (lastMoveTime s) (gameOver s) (snake s) (smallFood s)
    (bigFood s) (currentDirection s) (nextDirection s) (spacePressed s)
    (ctrlPressed s).

Definition set_smallFoodEaten (a : Z) (s : State) : State :=
  mkState (GAME_SPEED s) (score s) (bigFoodOnScreen s) (smallFoodOnScreen s)
    a (lastMoveTime s) (gameOver s) (snake s) (smallFood s)
    (bigFood s) (currentDirection s) (nextDirection s) (spacePressed s)
    (ctrlPressed s).

Definition set_lastMoveTime (a : Q) (s : State) : State :=
  mkState (GAME_SPEED s) (score s) (bigFoodOnScreen s) (smallFoodOnScreen s)
    (smallFoodEaten s) a (gameOver s) (snake s) (smallFood s)
    (bigFood s) (currentDirection s) (nextDirection s) (spacePressed s)
    (ctrlPressed s).

Definition set_gameOver (a : bool) (s : State) : State :=
  mkState (GAME_SPEED s) (score s) (bigFoodOnScreen s) (smallFoodOnScreen s)
    (smallFoodEaten s) (lastMoveTime s) a (snake s) (smallFood s)
    (bigFood s) (currentDirection s) (nextDirection s) (spacePressed s)
    (ctrlPressed s).

Definition set_snake (a : list Square) (s : State) : State :=
  mkState (GAME_SPEED s) (score s) (bigFoodOnScreen s) (smallFoodOnScreen s)
    (smallFoodEaten s) (lastMoveTime s) (gameOver s) a (smallFood s)
    (bigFood s) (currentDirection s) (nextDirection s) (spacePressed s)
    (ctrlPressed s).

Definition set_smallFood (a : Square) (s : State) : State :=
  mkState (GAME_SPEED s) (score s) (bigFoodOnScreen s) (smallFoodOnScreen s)
    (smallFoodEaten s) (lastMoveTime s) (gameOver s) (snake s) a
    (bigFood s) (currentDirection s) (nextDirection s) (spacePressed s)
    (ctrlPressed s).

Definition set_bigFood (a : Square) (s : State) : State :=
  mkState (GAME_SPEED s) (score s) (bigFoodOnScreen s) (smallFoodOnScreen s)
    (smallFoodEaten s) (lastMoveTime s) (gameOver s) (snake s) (smallFood s)
    a (currentDirection s) (nextDirection s) (spacePressed s)
    (ctrlPressed s).

Definition set_currentDirection (a : Direction) (s : State) : State :=
  mkState (GAME_SPEED s) (score s) (bigFoodOnScreen s) (smallFoodOnScreen s)
    (smallFoodEaten s) (lastMoveTime s) (gameOver s) (snake s) (smallFood s)
    (bigFood s) a (nextDirection s) (spacePressed s)
    (ctrlPressed s).

Definition set_nextDirection (a : Direction) (s : State) : State :=
  mkState (GAME_SPEED s) (score s) (bigFoodOnScreen s) (smallFoodOnScreen s)
    (smallFoodEaten s) (lastMoveTime s) (gameOver s) (snake s) (smallFood s)
    (bigFood s) (currentDirection s) a (spacePressed s)
    (ctrlPressed s).

Definition set_spacePressed (a : bool) (s : State) : State :=
  mkState (GAME_SPEED s) (score s) (bigFoodOnScreen s) (smallFoodOnScreen s)
    (smallFoodEaten s) (lastMoveTime s) (gameOver s) (snake s) (smallFood s)
    (bigFood s) (currentDirection s) (nextDirection s) a
    (ctrlPressed s).

Definition set_ctrlPressed (a : bool) (s : State) : State :=
  mkState (GAME_SPEED s) (score s) (bigFoodOnScreen s) (smallFoodOnScreen s)
    (smallFoodEaten s) (lastMoveTime s) (gameOver s) (snake s) (smallFood s)
    (bigFood s) (currentDirection s) (nextDirection s) (spacePressed s)
    a.

(** The globals as their initialisers leave them, before [main] runs. *)
Definition globals : State :=
  {| GAME_SPEED := 0.012;
     score := 0;
     bigFoodOnScreen := false;
     smallFoodOnScreen := true;
     smallFoodEaten := 0;
     lastMoveTime := 0.0;
     gameOver := false;
     snake := [];
     smallFood := Square_zero;
     bigFood := Square_zero;
     currentDirection := RIGHT;
     nextDirection := RIGHT;
     spacePressed := false;
     ctrlPressed := false |}.

(** [void spawnFood (bool isBigFood)] *)
Definition spawnFood (isBigFood : bool) (s : State) : Rand State :=
  newPosition <- spawn (snake s) ;;
  ret (if isBigFood
       then set_bigFood {| position := newPosition;
                           direction := direction (bigFood s) |} s
       else set_smallFood {| position := newPosition;
                             direction := direction (smallFood s) |} s).

(** ** Input mapper *)

(** The six keys [processInput] polls; [true] is [GLFW_PRESS]. *)
Record Keys : Set := mkKeys {
  KEY_SPACE : bool;
  KEY_LEFT_CONTROL : bool;
  KEY_UP : bool;
  KEY_DOWN : bool;
  KEY_LEFT : bool;
  KEY_RIGHT : bool
}.

(** Lines 384-399: the space bar. *)
Definition processSpace (k : Keys) (s : State) : State :=
  if KEY_SPACE k && negb (spacePressed s) then
    let s := set_spacePressed true s in
    if Qgtb (GAME_SPEED s) 0.003 then set_GAME_SPEED (GAME_SPEED s - 0.005) s
    else s
  else if negb (KEY_SPACE k) then
    let s := set_spacePressed false s in
    if negb (ctrlPressed s) then set_GAME_SPEED game_speed_controller s
    else s
  else s.

(** Lines 402-415: left control. *)
Definition processCtrl (k : Keys) (s : State) : State :=
  if KEY_LEFT_CONTROL k && negb (ctrlPressed s) then
    let s := set_ctrlPressed true s in
    set_GAME_SPEED 0.5 s
  else if negb (KEY_LEFT_CONTROL k) then
    let s := set_ctrlPressed false s in
    if negb (spacePressed s) then set_GAME_SPEED game_speed_controller s
    else s
  else s.

(** Lines 419-433: the arrow keys. *)
Definition processArrows (k : Keys) (s : State) : State :=
  if KEY_UP k && Direction_neb (currentDirection s) DOWN then
    set_nextDirection UP s
  else if KEY_DOWN k && Direction_neb (currentDirection s) UP then
    set_nextDirection DOWN s
  else if KEY_LEFT k && Direction_neb (currentDirection s) RIGHT then
    set_nextDirection LEFT s
  else if KEY_RIGHT k && Direction_neb (currentDirection s) LEFT then
    set_nextDirection RIGHT s
  else s.

(** [void processInput (GLFWwindow* window)] *)
Definition processInput (k : Keys) (s : State) : State :=
  processArrows k (processCtrl k (processSpace k s)).

(** ** Simulation loop *)

(** Lines 216-254: commit the direction, stamp the time, move. *)
Definition stepSnake (currentTime : Q) (s : State) : State :=
  let s := set_currentDirection (nextDirection s) s in
  let s := set_lastMoveTime currentTime s in
  set_snake (advance (currentDirection s) (snake s)) s.

(** Lines 257-263: the wall test. *)
Definition checkWalls (s : State) : State :=
  if hitsWall (head_position (snake s)) then set_gameOver true s else s.

(** Lines 271-277: the test against the body. *)
Definition checkSelf (s : State) : State :=
  if selfCollision (snake s) then set_gameOver true s else s.

(** The condition of line 280. *)
Definition smallFoodHit (s : State) : bool :=
  smallFoodOnScreen s
  && glm.distance_lt (head_position (snake s)) (position (smallFood s))
       SQUARE_SIZE.

(** Lines 280-303. *)
Definition eatSmallFood (s : State) : Rand State :=
  if smallFoodHit s then
    let s := set_snake (grow 25 (snake s)) s in
    let s := set_score (score s + 1) s in
    let s := set_smallFoodEaten (smallFoodEaten s + 1) s in
    if (smallFoodEaten s =? 3)%Z then
      s <- spawnFood true s ;;
      let s := set_bigFoodOnScreen true s in
      let s := set_smallFoodOnScreen false s in
      ret (set_smallFoodEaten 0 s)
    else
      s <- spawnFood false s ;;
      ret (set_smallFoodOnScreen true s)
  else ret s.

(** What [head.position] yields at line 306.  [head] was bound to
    [snake[0]] at line 233.  When the small-food step has fired in [m], the
    state the movement left, and its 25 pushes have moved the storage, the
    reference dangles: the read is undefined, and the model lets it find
    [stale], whatever the freed storage holds.  Otherwise it finds the head
    of the snake of [s], the state that step has left. *)
Definition headRead (stale : glm.vec2) (m s : State) : glm.vec2 :=
  if smallFoodHit m && reallocates (length (snake m)) 25 then stale
  else head_position (snake s).

(** The condition of line 306, for the position [head] that the read of
    [head.position] yields. *)
Definition bigFoodHit (head : glm.vec2) (s : State) : bool :=
  bigFoodOnScreen s
  && glm.distance_lt head (position (bigFood s)) (SQUARE_SIZE * 2).

(** Lines 306-319. *)
Definition eatBigFood (head : glm.vec2) (s : State) : Rand State :=
  if bigFoodHit head s then
    let s := set_snake (grow 75 (snake s)) s in
    let s := set_score (score s + 2) s in
    s <- spawnFood false s ;;
    let s := set_smallFoodOnScreen true s in
    ret (set_bigFoodOnScreen false s)
  else ret s.

(** The state in which the food tests of a tick run. *)
Definition moved (currentTime : Q) (s : State) : State :=
  checkSelf (checkWalls (stepSnake currentTime s)).

(** Lines 216-319: one tick.  [stale] is what a read through the reference
    [head] finds if that reference dangles. *)
Definition tick (currentTime : Q) (stale : glm.vec2) (s : State)
  : Rand State :=
  let m := moved currentTime s in
  s <- eatSmallFood m ;;
  eatBigFood (headRead stale m s) s.

(** Lines 208-320: the guarded tick of one frame. *)
Definition update (currentTime : Q) (stale : glm.vec2) (s : State)
  : Rand State :=
  let deltaTime := (currentTime - lastMoveTime s)%Q in
  if Qgeb deltaTime (GAME_SPEED s) && negb (gameOver s)
  then tick currentTime stale s
  else ret s.

(** One round of the rendering loop: input, guarded tick and, when the game
    is over, the score written to the console before [break]. *)
Definition frame (k : Keys) (currentTime : Q) (stale : glm.vec2) (s : State)
  : Rand (State * option Z) :=
  s <- update currentTime stale (processInput k s) ;;
  ret (s, if gameOver s then Some (score s) else None).

(** Lines 196-198: the start of a session. *)
Definition initGame : Rand State :=
  let s :=
    set_snake
      (push_back
         {| position := {| glm.x := windowWIDTH / 2.0;
                           glm.y := windowHEIGHT / 2.0 |};
            direction := RIGHT |}
         (snake globals))
      globals in
  spawnFood false s.

(** The states of a session: the one [main] sets up and the ones each round
    of the rendering loop ends in.  The loop is left by [break] as soon as
    [gameOver] holds, so rounds start from running states only. *)
Inductive reachable : State -> Prop :=
| reachable_init rs s rs' :
    initGame rs = Some (s, rs') -> reachable s
| reachable_frame s k currentTime stale rs s' out rs' :
    reachable s ->
    gameOver s = false ->
    frame k currentTime stale s rs = Some (s', out, rs') ->
    reachable s'.

(** What the small-food step leaves behind when it fires. *)
Definition afterSmallFood (s : State) (p : glm.vec2) : State :=
  let s := set_snake (grow 25 (snake s)) s in
  let s := set_score (score s + 1) s in
  let s := set_smallFoodEaten (smallFoodEaten s + 1) s in
  if (smallFoodEaten s =? 3)%Z then
    let s := set_bigFood {| position := p;
                            direction := direction (bigFood s) |} s in
    let s := set_bigFoodOnScreen true s in
    let s := set_smallFoodOnScreen false s in
    set_smallFoodEaten 0 s
  else
    let s := set_smallFood {| position := p;
                              direction := direction (smallFood s) |} s in
    set_smallFoodOnScreen true s.

(** What the large-food step leaves behind when it fires. *)
Definition afterBigFood (s : State) (p : glm.vec2) : State :=
  let s := set_snake (grow 75 (snake s)) s in
  let s := set_score (score s + 2) s in
  let s := set_smallFood {| position := p;
                            direction := direction (smallFood s) |} s in
  let s := set_smallFoodOnScreen true s in
  set_bigFoodOnScreen false s.

(** [main]: the start of a session followed by the rounds for the given
    inputs (keys held and clock reading of each round), ending early at
    game over as the [break] does.  [stale] is what the reads through a
    dangling [head] find in this session. *)
Fixpoint rounds (stale : glm.vec2) (inputs : list (Keys * Q)) (s : State)
  : Rand State :=
  match inputs with
  | [] => ret s
  | (k, currentTime) :: rest =>
      if gameOver s then ret s
      else so <- frame k currentTime stale s ;; rounds stale rest (fst so)
  end.

Definition play (stale : glm.vec2) (inputs : list (Keys * Q)) : Rand State :=
  s <- initGame ;; rounds stale inputs s.

(** ** Vocabulary of the specification *)

(** Exactly one of the two foods is active. *)
Definition exactlyOneFood (s : State) : Prop :=
  (smallFoodOnScreen s = true /\ bigFoodOnScreen s = false) \/
  (smallFoodOnScreen s = false /\ bigFoodOnScreen s = true).

(** The exact reverse of a direction. *)
Definition opposite (d : Direction) : Direction :=
  match d with
  | UP => DOWN
  | DOWN => UP
  | LEFT => RIGHT
  | RIGHT => LEFT
  end.

(** The arrow key of a direction. *)
Definition arrow (d : Direction) (k : Keys) : bool :=
  match d with
  | UP => KEY_UP k
  | DOWN => KEY_DOWN k
  | LEFT => KEY_LEFT k
  | RIGHT => KEY_RIGHT k
  end.

(** The direction intent of the player is [d]: its arrow is held and no
    other arrow is. *)
Definition intent (d : Direction) (k : Keys) : Prop :=
  forall d', arrow d' k = negb (Direction_neb d' d).

(** The field in which the spawner places food: [100, 700] x [100, 500]. *)
Definition inField (p : glm.vec2) : Prop :=
  (100 <= glm.x p /\ glm.x p <= 700 /\ 100 <= glm.y p /\ glm.y p <= 500)%Q.

(** The small food lies in the field, and so does the large food while it
    is active. *)
Definition foodsInField (s : State) : Prop :=
  inField (position (smallFood s)) /\
  (bigFoodOnScreen s = true -> inField (position (bigFood s))).

(** The head is within 2.5 of some other segment. *)
Definition touchesBody (v : list Square) : Prop :=
  exists i seg,
    (1 <= i)%nat /\ v !! i = Some seg /\
    (glm.distance2 (head_position v) (position seg) < 2.5 * 2.5)%Q.

(** ** Concrete inputs *)

(** What a dangling read finds in the concrete sessions: the origin. *)
Definition freed : glm.vec2 := {| glm.x := 0; glm.y := 0 |}.

Definition noKeys : Keys := mkKeys false false false false false false.
Definition spaceKey : Keys := mkKeys true false false false false false.
Definition ctrlKey : Keys := mkKeys false true false false false false.
Definition upKey : Keys := mkKeys false false true false false false.
Definition downKey : Keys := mkKeys false false false true false false.
Definition leftKey : Keys := mkKeys false false false false true false.
Definition rightKey : Keys := mkKeys false false false false false true.

(** A session of seven ticks straight to the right.  The snake eats the
    small foods at (420,300), (423,300) and (425,300) on ticks 1 to 3 (26,
    51, 76 segments), the large food at (450,300) on tick 5 (151 segments)
    and the small foods at (433,300) and (435,300) on ticks 6 and 7 (176,
    201 segments); the next small food lies at (438,300), and the oracle
    will place the large food at (441,300) and the small food after it at
    (100,100). *)
Definition secondCycle_rand : list N :=
  [320; 200; 323; 200; 325; 200; 350; 200; 333; 200; 335; 200; 338; 200;
   341; 200; 0; 0]%N.
Definition secondCycle_inputs : list (Keys * Q) :=
  [(noKeys, 1%Q); (noKeys, 2%Q); (noKeys, 3%Q); (noKeys, 4%Q); (noKeys, 5%Q);
   (noKeys, 6%Q); (noKeys, 7%Q)].

(** A session in which the large food appears at (377,272), more than 40
    from the head at (407.5,300); the snake then turns up, left and down
    into its own fourth segment at (405,300), less than 40 from that
    food. *)
Definition lastBite_rand : list N :=
  [320; 200; 323; 200; 325; 200; 277; 172; 0; 0]%N.
Definition lastBite_inputs : list (Keys * Q) :=
  [(noKeys, 1%Q); (noKeys, 2%Q); (noKeys, 3%Q); (upKey, 4%Q); (leftKey, 5%Q)].

(** A session in which the snake eats once and then runs a square of side
    2.5 (up, left, down, right) back into its own body at (402.5,300). *)
Definition loop_rand : list N := [320; 200; 0; 0]%N.
Definition loop_inputs : list (Keys * Q) :=
  [(noKeys, 1%Q); (upKey, 2%Q); (leftKey, 3%Q); (downKey, 4%Q)].

(** A session whose first round comes too early for a tick (1 ms after the
    start) while the up arrow is held. *)
Definition earlyUp_rand : list N := [0; 0]%N.
Definition earlyUp_inputs : list (Keys * Q) := [(upKey, 0.001%Q)].

(** A snake of two segments running right, head at the centre. *)
Definition twoSquares : list Square :=
  [ {| position := {| glm.x := 400; glm.y := 300 |}; direction := RIGHT |};
    {| position := {| glm.x := 397.5; glm.y := 300 |}; direction := RIGHT |} ].

(** Unwrapping the result of a finished computation. *)
Definition resultOf {A : Type} (default : A) (r : option (A * list N)) : A :=
  match r with
  | Some (a, _) => a
  | None => default
  end.
Definition restOf {A : Type} (r : option (A * list N)) : list N :=
  match r with
  | Some (_, rs) => rs
  | None => []
  end.
Definition stateOf (r : option (State * list N)) : State :=
  resultOf globals r.
Definition roundOf (r : option (State * option Z * list N))
  : State * option Z :=
  resultOf (globals, None) r.

(** ** Rendering *)

(** The vertex arrays and textures [main] sets up for the squares. *)
Inductive VAO : Set := headVAO | squareVAO | smallFoodVAO | bigFoodVAO.
Inductive Texture : Set := headTexture | bodyTexture | foodTexture.

(** What one call of [drawSquare] hands to the pipeline: the translation of
    the model matrix, its rotation about the z axis in degrees, the
    uniforms [useTexture] and [color], the texture bound (none unless
    [useTexture]) and the vertex array drawn. *)
Record Quad : Set := mkQuad {
  translation : glm.vec2;
  degrees : Q;
  useTexture : bool;
  color : Q * Q * Q;
  texture : option Texture;
  vao : VAO
}.

(** [glm::vec3 (0.0, 1.0, 0.0)], the colour of every call in [main]. *)
Definition green : Q * Q * Q := (0.0, 1.0, 0.0)%Q.

(** [void drawSquare (const Square& square, ..., unsigned int VAO, ...,
    unsigned int textureID, ...)], lines 498-538 *)
Definition drawSquare (square : Square) (VAO_ : VAO) (useTexture_ : bool)
    (textureID : Texture) (color_ : Q * Q * Q) : Quad :=
  {| translation := position square;
     degrees := match direction square with
                | UP => 90.0
                | DOWN => 270.0
                | RIGHT => 0.0
                | LEFT => 180.0
                end;
     useTexture := useTexture_;
     color := color_;
     texture := if useTexture_ then Some textureID else None;
     vao := VAO_ |}.

(** Lines 337-344: [for (int i = 0; i < snake.size (); i++)], entered with
    the given [i] and the segments from [i] on. *)
Fixpoint drawSegments (i : nat) (v : list Square) : list Quad :=
  match v with
  | [] => []
  | sq :: rest =>
      (if (i =? 0)%nat then drawSquare sq headVAO true headTexture green
       else drawSquare sq squareVAO true bodyTexture green)
      :: drawSegments (S i) rest
  end.

(** Lines 337-352: the squares drawn in one round, in order (the background
    quad drawn before them does not depend on the state). *)
Definition render (s : State) : list Quad :=
  drawSegments 0 (snake s)
  ++ [if bigFoodOnScreen s
      then drawSquare (bigFood s) bigFoodVAO true foodTexture green
      else drawSquare (smallFood s) smallFoodVAO true foodTexture green].

(** ** Further vocabulary *)

(** The order in which [processInput] polls the arrows. *)
Definition Direction_rank (d : Direction) : nat :=
  match d with
  | UP => 0
  | DOWN => 1
  | LEFT => 2
  | RIGHT => 3
  end.

(** Several ticks of movement in a row, one direction per tick. *)
Fixpoint advances (ds : list Direction) (v : list Square) : list Square :=
  match ds with
  | [] => v
  | d :: ds' => advances ds' (advance d v)
  end.

(** Two neighbours in the vector are at most one step apart. *)
Definition chained (v : list Square) : Prop :=
  forall i a b, v !! i = Some a -> v !! S i = Some b ->
    (glm.distance2 (position a) (position b) <= 2.5 * 2.5)%Q.

(** A coordinate on the grid of half units. *)
Definition onHalfGrid (q : Q) : Prop := exists k : Z, (q == inject_Z k / 2)%Q.

(** A segment on the half-unit grid, at most one step outside the playable
    rectangle. *)
Definition inArena (sq : Square) : Prop :=
  onHalfGrid (glm.x (position sq)) /\ onHalfGrid (glm.y (position sq)) /\
  (57.5 <= glm.x (position sq) /\ glm.x (position sq) < 742.5 /\
   40.5 <= glm.y (position sq) /\ glm.y (position sq) < 542.5)%Q.

(** The candidate the spawner builds in its round number [n] from a supply
    of oracle results. *)
Definition candidateAt (rs : list N) (n : nat) : option glm.vec2 :=
  match rs !! (2 * n)%nat, rs !! (2 * n + 1)%nat with
  | Some r1, Some r2 => Some (candidate r1 r2)
  | _, _ => None
  end.

(** ** Further concrete inputs *)

(** A session in which the snake turns up at once and runs into the top
    wall: 95 rounds, one tick each, bring the head to (400,537.5). *)
Definition wallRun_rand : list N := [0; 0]%N.
Definition wallRun_inputs : list (Keys * Q) :=
  map (fun i => (upKey, inject_Z (Z.of_nat i))) (seq 1 95).

(** The states two of the concrete sessions end in, what is left of the
    supply of the first, and the round that follows it. *)
Definition lastBite_state : State :=
  stateOf (play freed lastBite_inputs lastBite_rand).
Definition lastBite_rest : list N :=
  restOf (play freed lastBite_inputs lastBite_rand).
Definition lastBite_round : State * option Z :=
  roundOf (frame downKey 6 freed lastBite_state lastBite_rest).
Definition wallRun_state : State :=
  stateOf (play freed wallRun_inputs wallRun_rand).

(** The state the session of the second cycle ends in and what is left of
    its supply. *)
Definition secondCycle_state : State :=
  stateOf (play freed secondCycle_inputs secondCycle_rand).
Definition secondCycle_rest : list N :=
  restOf (play freed secondCycle_inputs secondCycle_rand).

(** ** Properties of the snake model *)

Section SnakeModel.

Implicit Types (v : list Square) (sq : Square) (d : Direction).

Lemma Square_eta sq :
  {| position := position sq; direction := direction sq |} = sq.
Proof. now destruct sq. Qed.

Lemma shift_at_length i v : length (shift_at i v) = length v.
Proof.
  unfold shift_at. destruct (v !! (i - 1)%nat); [|done].
  by rewrite length_insert.
Qed.

Lemma shift_loop_length i v :
  length (shift_loop i v) = length v.
Proof.
  revert v. induction i as [|j IH]; intros v; simpl; [done|].
  by rewrite IH, shift_at_length.
Qed.

Lemma shift_at_lookup i v k :
  (0 < i < length v)%nat ->
  shift_at i v !! k =
    if decide (k = i) then v !! (i - 1)%nat else v !! k.
Proof.
  intros Hi. unfold shift_at.
  destruct (v !! (i - 1)%nat) as [prev|] eqn:E.
  - rewrite Square_eta. destruct (decide (k = i)) as [->|Hne].
    + by rewrite list_lookup_insert_eq by lia.
    + by rewrite list_lookup_insert_ne by done.
  - apply lookup_ge_None in E. lia.
Qed.

(** After the loop entered at [i], the cells [1..i] hold what their left
    neighbours held before, and the other cells are untouched. *)
Lemma shift_loop_lookup i v k :
  (i < length v)%nat ->
  shift_loop i v !! k =
    if decide (1 <= k <= i)%nat then v !! (k - 1)%nat else v !! k.
Proof.
  revert v. induction i as [|j IH]; intros v Hi; simpl.
  - destruct (decide (1 <= k <= 0)%nat); [lia|done].
  - rewrite IH by (rewrite shift_at_length; lia).
    destruct (decide (1 <= k <= j)%nat) as [Hk|Hk].
    + rewrite shift_at_lookup by lia.
      destruct (decide ((k - 1)%nat = S j)); [lia|].
      destruct (decide (1 <= k <= S j)%nat); [done|lia].
    + rewrite shift_at_lookup by lia.
      destruct (decide (k = S j)) as [->|Hne].
      * destruct (decide (1 <= S j <= S j)%nat); [done|lia].
      * destruct (decide (1 <= k <= S j)%nat); [lia|done].
Qed.

Lemma shift_length v : length (shift v) = length v.
Proof. apply shift_loop_length. Qed.

Lemma shift_lookup_succ v i :
  (1 <= i < length v)%nat -> shift v !! i = v !! (i - 1)%nat.
Proof.
  intros Hi. unfold shift. rewrite shift_loop_lookup by lia.
  destruct (decide (1 <= i <= length v - 1)%nat); [done|lia].
Qed.

Lemma shift_lookup_0 v : shift v !! 0%nat = v !! 0%nat.
Proof.
  destruct v as [|h t]; [done|].
  unfold shift. rewrite shift_loop_lookup by (simpl; lia).
  destruct (decide (1 <= 0 <= _)%nat); [lia|done].
Qed.

Lemma moveHead_length d v : length (moveHead d v) = length v.
Proof.
  unfold moveHead. destruct (v !! 0%nat); [|done].
  by rewrite length_insert.
Qed.

Lemma moveHead_lookup_succ d v i :
  (1 <= i)%nat -> moveHead d v !! i = v !! i.
Proof.
  intros Hi. unfold moveHead. destruct (v !! 0%nat); [|done].
  rewrite list_lookup_insert_ne by lia. done.
Qed.

Lemma moveHead_lookup_0 d v head :
  v !! 0%nat = Some head ->
  moveHead d v !! 0%nat =
    Some {| position := move d (position head); direction := d |}.
Proof.
  intros E. unfold moveHead. rewrite E.
  apply list_lookup_insert_eq. apply lookup_lt_Some in E. done.
Qed.

Lemma advance_length d v : length (advance d v) = length v.
Proof. unfold advance. by rewrite moveHead_length, shift_length. Qed.

Lemma advance_lookup_0 d v head :
  v !! 0%nat = Some head ->
  advance d v !! 0%nat =
    Some {| position := move d (position head); direction := d |}.
Proof.
  intros E. unfold advance. apply moveHead_lookup_0.
  by rewrite shift_lookup_0.
Qed.

Lemma advance_lookup_succ d v i :
  (1 <= i < length v)%nat -> advance d v !! i = v !! (i - 1)%nat.
Proof.
  intros Hi. unfold advance.
  rewrite moveHead_lookup_succ by lia. by apply shift_lookup_succ.
Qed.

Lemma push_back_n_eq n sq v :
  push_back_n n sq v = v ++ replicate n sq.
Proof.
  revert v. induction n as [|k IH]; intros v; simpl.
  - by rewrite app_nil_r.
  - rewrite IH. unfold push_back. by rewrite <- app_assoc.
Qed.

Lemma grow_eq n v tail :
  last v = Some tail -> grow n v = v ++ replicate n tail.
Proof. intros E. unfold grow. rewrite E. apply push_back_n_eq. Qed.

Lemma grow_length n v :
  v <> [] -> length (grow n v) = (length v + n)%nat.
Proof.
  intros Hne. destruct (last v) as [tail|] eqn:E.
  - rewrite (grow_eq _ _ _ E), length_app, length_replicate. done.
  - apply last_None in E. done.
Qed.

End SnakeModel.

(** *** C6 and C7: movement and growth *)

(** C6. For a snake of length n >= 1 the movement of a tick keeps the
    segment count, gives every segment i >= 1 the position and direction
    segment i-1 had before, and moves the head by exactly the step distance
    2.5 along the committed direction [d], which becomes the head's
    direction. *)
Theorem advance_spec (d : Direction) (v : list Square) :
  (1 <= length v)%nat ->
  length (advance d v) = length v /\
  (forall i, (1 <= i < length v)%nat -> advance d v !! i = v !! (i - 1)%nat) /\
  (exists head head',
     v !! 0%nat = Some head /\
     advance d v !! 0%nat = Some head' /\
     direction head' = d /\
     match d with
     | UP =>
         glm.x (position head') = glm.x (position head) /\
         glm.y (position head') = (glm.y (position head) + 2.5)%Q
     | DOWN =>
         glm.x (position head') = glm.x (position head) /\
         glm.y (position head') = (glm.y (position head) - 2.5)%Q
     | LEFT =>
         glm.x (position head') = (glm.x (position head) - 2.5)%Q /\
         glm.y (position head') = glm.y (position head)
     | RIGHT =>
         glm.x (position head') = (glm.x (position head) + 2.5)%Q /\
         glm.y (position head') = glm.y (position head)
     end).
Proof.
  intros Hlen. split; [apply advance_length|].
  split; [intros i Hi; by apply advance_lookup_succ|].
  destruct v as [|head rest]; [simpl in Hlen; lia|].
  exists head, {| position := move d (position head); direction := d |}.
  split; [done|]. split; [by apply advance_lookup_0|].
  split; [done|]. by destruct d.
Qed.

(** C7. A growth event of [n] segments lengthens the snake by exactly [n];
    every new cell is a copy of the tail the snake had before, and the cells
    that existed before are unchanged. *)
Theorem grow_spec (n : nat) (v : list Square) (tail : Square) :
  last v = Some tail ->
  length (grow n v) = (length v + n)%nat /\
  (forall i, (i < length v)%nat -> grow n v !! i = v !! i) /\
  (forall i, (length v <= i < length v + n)%nat -> grow n v !! i = Some tail).
Proof.
  intros E. rewrite (grow_eq _ _ _ E). split; [|split].
  - by rewrite length_app, length_replicate.
  - intros i Hi. by rewrite lookup_app_l.
  - intros i Hi. rewrite lookup_app_r by lia.
    apply lookup_replicate_2. lia.
Qed.

(** ** Comparisons *)

Lemma Qle_bool_false (a b : Q) : Qle_bool a b = false <-> (b < a)%Q.
Proof.
  rewrite <- not_true_iff_false, Qle_bool_iff. split.
  - apply Qnot_le_lt.
  - apply Qlt_not_le.
Qed.

Lemma Qltb_true (a b : Q) : Qltb a b = true <-> (a < b)%Q.
Proof. unfold Qltb. rewrite negb_true_iff. apply Qle_bool_false. Qed.

Lemma Qltb_false (a b : Q) : Qltb a b = false <-> (b <= a)%Q.
Proof. unfold Qltb. rewrite negb_false_iff. apply Qle_bool_iff. Qed.

Lemma Qgeb_true (a b : Q) : Qgeb a b = true <-> (b <= a)%Q.
Proof. apply Qle_bool_iff. Qed.

Lemma Qgeb_false (a b : Q) : Qgeb a b = false <-> (a < b)%Q.
Proof. apply Qle_bool_false. Qed.

Lemma distance_lt_true (a b : glm.vec2) (t : Q) :
  glm.distance_lt a b t = true <-> (glm.distance2 a b < t * t)%Q.
Proof. unfold glm.distance_lt. rewrite negb_true_iff. apply Qle_bool_false. Qed.

Lemma distance_lt_false (a b : glm.vec2) (t : Q) :
  glm.distance_lt a b t = false <-> (t * t <= glm.distance2 a b)%Q.
Proof. unfold glm.distance_lt. rewrite negb_false_iff. apply Qle_bool_iff. Qed.

(** The playable rectangle, as the wall test of the loop draws it: the
    bottom edge lies at 60 - 17 = 43, the three others 60 inside the
    window. *)
Lemma hitsWall_false (p : glm.vec2) :
  hitsWall p = false <->
  (60 <= glm.x p /\ glm.x p < 740 /\ 43 <= glm.y p /\ glm.y p < 540)%Q.
Proof.
  unfold hitsWall. rewrite !orb_false_iff, !Qltb_false, !Qgeb_false.
  unfold WALL_THICKNESS, windowWIDTH, windowHEIGHT. split.
  - intros [[[H1 H2] H3] H4]. repeat split; lra.
  - intros (H1 & H2 & H3 & H4). repeat split; lra.
Qed.

(** ** The food spawner *)

Lemma candidate_eq (r1 r2 : N) :
  candidate r1 r2 =
    {| glm.x := inject_Z (100 + Z.rem (Z.of_N r1) 601);
       glm.y := inject_Z (100 + Z.rem (Z.of_N r2) 401) |}.
Proof. reflexivity. Qed.

Lemma validPosition_true (v : list Square) (p : glm.vec2) :
  validPosition v p = true <->
  forall seg, seg ∈ v -> glm.distance_lt (position seg) p SQUARE_SIZE = false.
Proof.
  induction v as [|seg0 rest IH]; simpl.
  - split; [|done]. intros _ seg Hin. by apply elem_of_nil in Hin.
  - destruct (glm.distance_lt (position seg0) p SQUARE_SIZE) eqn:E.
    + split; [done|]. intros H. specialize (H seg0 (list_elem_of_here _ _)).
      congruence.
    + rewrite IH. split.
      * intros H seg Hin. apply elem_of_cons in Hin as [->|Hin]; auto.
      * intros H seg Hin. apply H. by apply list_elem_of_further.
Qed.

(** The loop can only leave with a candidate that passed the test. *)
Lemma spawn_Some (v : list Square) (rs rs' : list N) (p : glm.vec2) :
  spawn v rs = Some (p, rs') ->
  exists r1 r2, p = candidate r1 r2 /\ validPosition v p = true.
Proof.
  remember (length rs) as n eqn:Hn. revert rs Hn.
  induction n as [n IH] using lt_wf_ind. intros rs Hn Hs.
  destruct rs as [|r1 [|r2 rest]]; simpl in Hs; try discriminate.
  destruct (validPosition v (candidate r1 r2)) eqn:E.
  - injection Hs as <- <-. by exists r1, r2.
  - eapply (IH (length rest)); [|done|exact Hs]. subst n. simpl. lia.
Qed.

(** It consumes an even, positive number of oracle results. *)
Lemma spawn_shorter (v : list Square) (rs rs' : list N) (p : glm.vec2) :
  spawn v rs = Some (p, rs') -> (length rs' < length rs)%nat.
Proof.
  remember (length rs) as n eqn:Hn. revert rs Hn.
  induction n as [n IH] using lt_wf_ind. intros rs Hn Hs.
  destruct rs as [|r1 [|r2 rest]]; simpl in Hs; try discriminate.
  destruct (validPosition v (candidate r1 r2)) eqn:E.
  - injection Hs as _ <-. subst n. simpl. lia.
  - assert (length rs' < length rest)%nat.
    { eapply (IH (length rest)); [|done|exact Hs]. subst n. simpl. lia. }
    subst n. simpl. lia.
Qed.

(** The candidates have integer coordinates in [100, 700] x [100, 500]. *)
Lemma spawn_integer (v : list Square) (rs rs' : list N) (p : glm.vec2) :
  spawn v rs = Some (p, rs') ->
  exists X Y : Z,
    p = {| glm.x := inject_Z X; glm.y := inject_Z Y |} /\
    (100 <= X <= 700)%Z /\ (100 <= Y <= 500)%Z.
Proof.
  intros Hs. destruct (spawn_Some _ _ _ _ Hs) as (r1 & r2 & -> & _).
  rewrite candidate_eq.
  pose proof (Z.rem_bound_pos (Z.of_N r1) 601 (N2Z.is_nonneg r1) eq_refl).
  pose proof (Z.rem_bound_pos (Z.of_N r2) 401 (N2Z.is_nonneg r2) eq_refl).
  eexists _, _. split; [reflexivity|]. lia.
Qed.

Lemma spawn_inField (v : list Square) (rs rs' : list N) (p : glm.vec2) :
  spawn v rs = Some (p, rs') -> inField p.
Proof.
  intros Hs. apply spawn_integer in Hs as (X & Y & -> & [HX1 HX2] & [HY1 HY2]).
  rewrite Zle_Qle in HX1, HX2, HY1, HY2. unfold inField. simpl.
  change (inject_Z 100) with 100%Q in *.
  change (inject_Z 700) with 700%Q in *.
  change (inject_Z 500) with 500%Q in *.
  repeat split; assumption.
Qed.

(** The returned position passed the test against every segment. *)
Lemma spawn_far (v : list Square) (rs rs' : list N) (p : glm.vec2) :
  spawn v rs = Some (p, rs') ->
  forall seg, seg ∈ v -> (20 * 20 <= glm.distance2 (position seg) p)%Q.
Proof.
  intros Hs seg Hin. destruct (spawn_Some _ _ _ _ Hs) as (r1 & r2 & _ & Hv).
  apply (proj1 (validPosition_true _ _) Hv) in Hin.
  by apply distance_lt_false in Hin.
Qed.

(** C8. Whenever the spawner returns, the position has integer coordinates
    in [100, 700] x [100, 500]; a food square centred there, of half-size
    up to 20 (the large food), stays inside the playable rectangle of the
    wall test; and the position is at least the segment size 20 away from
    every segment of the snake. *)
Theorem spawn_spec (v : list Square) (rs rs' : list N) (p : glm.vec2) :
  spawn v rs = Some (p, rs') ->
  (exists X Y : Z,
     p = {| glm.x := inject_Z X; glm.y := inject_Z Y |} /\
     (100 <= X <= 700)%Z /\ (100 <= Y <= 500)%Z) /\
  (forall dx dy : Q,
     (- SQUARE_SIZE <= dx <= SQUARE_SIZE)%Q ->
     (- SQUARE_SIZE <= dy <= SQUARE_SIZE)%Q ->
     hitsWall {| glm.x := glm.x p + dx; glm.y := glm.y p + dy |} = false) /\
  (forall seg, seg ∈ v ->
     (20 * 20 <= glm.distance2 (position seg) p)%Q).
Proof.
  intros Hs. split; [by eapply spawn_integer|]. split; [|by eapply spawn_far].
  intros dx dy Hdx Hdy. apply hitsWall_false. simpl.
  destruct (spawn_inField _ _ _ _ Hs) as (HX1 & HX2 & HY1 & HY2).
  unfold SQUARE_SIZE in Hdx, Hdy. repeat split; lra.
Qed.

(** ** The oracle monad *)

Lemma bind_Some {A B : Type} (m : Rand A) (f : A -> Rand B)
    (rs rs' : list N) (b : B) :
  bind m f rs = Some (b, rs') ->
  exists a rs1, m rs = Some (a, rs1) /\ f a rs1 = Some (b, rs').
Proof. unfold bind. destruct (m rs) as [[a rs1]|]; [|done]. eauto. Qed.

Lemma ret_Some {A : Type} (a b : A) (rs rs' : list N) :
  ret a rs = Some (b, rs') -> b = a /\ rs' = rs.
Proof. unfold ret. intros H. by injection H as <- <-. Qed.

Ltac fields :=
  cbv [set_GAME_SPEED set_score set_bigFoodOnScreen set_smallFoodOnScreen
       set_smallFoodEaten set_lastMoveTime set_gameOver set_snake
       set_smallFood set_bigFood set_currentDirection set_nextDirection
       set_spacePressed set_ctrlPressed] in *;
  simpl in *.

(** ** The steps of a tick *)

Lemma spawnFood_Some (isBigFood : bool) (s s' : State) (rs rs' : list N) :
  spawnFood isBigFood s rs = Some (s', rs') ->
  exists p,
    spawn (snake s) rs = Some (p, rs') /\
    s' = if isBigFood
         then set_bigFood {| position := p;
                             direction := direction (bigFood s) |} s
         else set_smallFood {| position := p;
                               direction := direction (smallFood s) |} s.
Proof.
  intros H. apply bind_Some in H as (p & rs1 & Hp & Hr).
  apply ret_Some in Hr as [-> ->]. by exists p.
Qed.

Lemma eatSmallFood_Some (s s' : State) (rs rs' : list N) :
  eatSmallFood s rs = Some (s', rs') ->
  (smallFoodHit s = false /\ s' = s /\ rs' = rs) \/
  (smallFoodHit s = true /\
   exists p, spawn (grow 25 (snake s)) rs = Some (p, rs') /\
             s' = afterSmallFood s p).
Proof.
  unfold eatSmallFood, afterSmallFood.
  destruct (smallFoodHit s) eqn:Hit.
  - intros H. right. split; [done|]. cbv zeta in *.
    destruct (smallFoodEaten _ =? 3)%Z eqn:E3.
    + apply bind_Some in H as (s1 & rs1 & Hs & Hr).
      apply ret_Some in Hr as [-> ->].
      apply spawnFood_Some in Hs as (p & Hp & ->). by exists p.
    + apply bind_Some in H as (s1 & rs1 & Hs & Hr).
      apply ret_Some in Hr as [-> ->].
      apply spawnFood_Some in Hs as (p & Hp & ->). by exists p.
  - intros H. apply ret_Some in H as [-> ->]. by left.
Qed.

Lemma eatBigFood_Some (head : glm.vec2) (s s' : State) (rs rs' : list N) :
  eatBigFood head s rs = Some (s', rs') ->
  (bigFoodHit head s = false /\ s' = s /\ rs' = rs) \/
  (bigFoodHit head s = true /\
   exists p, spawn (grow 75 (snake s)) rs = Some (p, rs') /\
             s' = afterBigFood s p).
Proof.
  unfold eatBigFood, afterBigFood.
  destruct (bigFoodHit head s) eqn:Hit.
  - intros H. right. split; [done|]. cbv zeta in *.
    apply bind_Some in H as (s1 & rs1 & Hs & Hr).
    apply ret_Some in Hr as [-> ->].
    apply spawnFood_Some in Hs as (p & Hp & ->). by exists p.
  - intros H. apply ret_Some in H as [-> ->]. by left.
Qed.

Lemma tick_Some (t : Q) (stale : glm.vec2) (s s' : State)
    (rs rs' : list N) :
  tick t stale s rs = Some (s', rs') ->
  exists s1 rs1,
    eatSmallFood (moved t s) rs = Some (s1, rs1) /\
    eatBigFood (headRead stale (moved t s) s1) s1 rs1 = Some (s', rs').
Proof. apply bind_Some. Qed.

(** The reference [head] is sound at line 306 when the small-food step has
    not fired, and when its pushes fit the storage. *)
Lemma headRead_silent (stale : glm.vec2) (m s : State) :
  smallFoodHit m = false -> headRead stale m s = head_position (snake s).
Proof. intros H. unfold headRead. by rewrite H. Qed.

Lemma headRead_fits (stale : glm.vec2) (m s : State) :
  reallocates (length (snake m)) 25 = false ->
  headRead stale m s = head_position (snake s).
Proof. intros H. unfold headRead. by rewrite H, andb_false_r. Qed.

(** The movement and the two collision tests touch the snake, the two
    directions, the clock stamp and the game-over flag, nothing else. *)
Lemma moved_snake (t : Q) (s : State) :
  snake (moved t s) = advance (nextDirection s) (snake s).
Proof.
  unfold moved, checkSelf, checkWalls, stepSnake.
  repeat (match goal with |- context [if ?b then _ else _] => destruct b end);
    reflexivity.
Qed.

Lemma moved_frame (t : Q) (s : State) :
  score (moved t s) = score s /\
  smallFoodOnScreen (moved t s) = smallFoodOnScreen s /\
  bigFoodOnScreen (moved t s) = bigFoodOnScreen s /\
  smallFoodEaten (moved t s) = smallFoodEaten s /\
  smallFood (moved t s) = smallFood s /\
  bigFood (moved t s) = bigFood s /\
  currentDirection (moved t s) = nextDirection s /\
  nextDirection (moved t s) = nextDirection s.
Proof.
  unfold moved, checkSelf, checkWalls, stepSnake.
  repeat (match goal with |- context [if ?b then _ else _] => destruct b end);
    repeat split; reflexivity.
Qed.

Lemma moved_gameOver (t : Q) (s : State) :
  gameOver (moved t s) =
    gameOver s
    || hitsWall (head_position (advance (nextDirection s) (snake s)))
    || selfCollision (advance (nextDirection s) (snake s)).
Proof.
  unfold moved, checkSelf, checkWalls, stepSnake. fields.
  destruct (hitsWall _); simpl;
    destruct (selfCollision _); simpl;
    destruct (gameOver s); reflexivity.
Qed.

(** ** The input mapper and the rounds of the loop *)

Ltac split_ifs :=
  repeat match goal with
         | |- context [if ?b then _ else _] => destruct b
         end.

(** The speed keys write the interval and their own flags only. *)
Lemma processSpace_frame (k : Keys) (s : State) :
  snake (processSpace k s) = snake s /\
  score (processSpace k s) = score s /\
  gameOver (processSpace k s) = gameOver s /\
  smallFoodOnScreen (processSpace k s) = smallFoodOnScreen s /\
  bigFoodOnScreen (processSpace k s) = bigFoodOnScreen s /\
  smallFoodEaten (processSpace k s) = smallFoodEaten s /\
  smallFood (processSpace k s) = smallFood s /\
  bigFood (processSpace k s) = bigFood s /\
  lastMoveTime (processSpace k s) = lastMoveTime s /\
  currentDirection (processSpace k s) = currentDirection s /\
  nextDirection (processSpace k s) = nextDirection s.
Proof. unfold processSpace. split_ifs; repeat split; reflexivity. Qed.

Lemma processCtrl_frame (k : Keys) (s : State) :
  snake (processCtrl k s) = snake s /\
  score (processCtrl k s) = score s /\
  gameOver (processCtrl k s) = gameOver s /\
  smallFoodOnScreen (processCtrl k s) = smallFoodOnScreen s /\
  bigFoodOnScreen (processCtrl k s) = bigFoodOnScreen s /\
  smallFoodEaten (processCtrl k s) = smallFoodEaten s /\
  smallFood (processCtrl k s) = smallFood s /\
  bigFood (processCtrl k s) = bigFood s /\
  lastMoveTime (processCtrl k s) = lastMoveTime s /\
  currentDirection (processCtrl k s) = currentDirection s /\
  nextDirection (processCtrl k s) = nextDirection s.
Proof. unfold processCtrl. split_ifs; repeat split; reflexivity. Qed.

(** The arrow keys write the pending direction only. *)
Lemma processArrows_frame (k : Keys) (s : State) :
  snake (processArrows k s) = snake s /\
  score (processArrows k s) = score s /\
  gameOver (processArrows k s) = gameOver s /\
  smallFoodOnScreen (processArrows k s) = smallFoodOnScreen s /\
  bigFoodOnScreen (processArrows k s) = bigFoodOnScreen s /\
  smallFoodEaten (processArrows k s) = smallFoodEaten s /\
  smallFood (processArrows k s) = smallFood s /\
  bigFood (processArrows k s) = bigFood s /\
  lastMoveTime (processArrows k s) = lastMoveTime s /\
  currentDirection (processArrows k s) = currentDirection s /\
  GAME_SPEED (processArrows k s) = GAME_SPEED s.
Proof. unfold processArrows. split_ifs; repeat split; reflexivity. Qed.

Lemma processInput_frame (k : Keys) (s : State) :
  snake (processInput k s) = snake s /\
  score (processInput k s) = score s /\
  gameOver (processInput k s) = gameOver s /\
  smallFoodOnScreen (processInput k s) = smallFoodOnScreen s /\
  bigFoodOnScreen (processInput k s) = bigFoodOnScreen s /\
  smallFoodEaten (processInput k s) = smallFoodEaten s /\
  smallFood (processInput k s) = smallFood s /\
  bigFood (processInput k s) = bigFood s /\
  lastMoveTime (processInput k s) = lastMoveTime s /\
  currentDirection (processInput k s) = currentDirection s.
Proof.
  unfold processInput.
  destruct (processArrows_frame k (processCtrl k (processSpace k s)))
    as (-> & -> & -> & -> & -> & -> & -> & -> & -> & -> & _).
  destruct (processCtrl_frame k (processSpace k s))
    as (-> & -> & -> & -> & -> & -> & -> & -> & -> & -> & _).
  destruct (processSpace_frame k s)
    as (-> & -> & -> & -> & -> & -> & -> & -> & -> & -> & _).
  repeat split; reflexivity.
Qed.

(** The pending direction after the arrow keys is never the reverse of the
    current direction, unless it was so before. *)
Lemma processArrows_nextDirection (k : Keys) (s : State) :
  nextDirection (processArrows k s) = nextDirection s \/
  nextDirection (processArrows k s) <> opposite (currentDirection s).
Proof.
  unfold processArrows.
  destruct (currentDirection s), (KEY_UP k), (KEY_DOWN k), (KEY_LEFT k),
    (KEY_RIGHT k); simpl; (by left) || (right; discriminate).
Qed.

Lemma update_Some (t : Q) (stale : glm.vec2) (s s' : State)
    (rs rs' : list N) :
  update t stale s rs = Some (s', rs') ->
  (Qgeb (t - lastMoveTime s) (GAME_SPEED s) && negb (gameOver s) = false /\
   s' = s /\ rs' = rs) \/
  (Qgeb (t - lastMoveTime s) (GAME_SPEED s) = true /\ gameOver s = false /\
   tick t stale s rs = Some (s', rs')).
Proof.
  unfold update. cbv zeta.
  destruct (Qgeb _ _) eqn:Hdue; simpl;
    destruct (gameOver s) eqn:Hover; simpl; intros H;
    try (apply ret_Some in H as [-> ->]; by left).
  by right.
Qed.

Lemma frame_Some (k : Keys) (t : Q) (stale : glm.vec2) (s s' : State)
    (out : option Z) (rs rs' : list N) :
  frame k t stale s rs = Some (s', out, rs') ->
  update t stale (processInput k s) rs = Some (s', rs') /\
  out = (if gameOver s' then Some (score s') else None).
Proof.
  intros H. apply bind_Some in H as (s1 & rs1 & Hu & Hr).
  apply ret_Some in Hr as [Heq ->]. by injection Heq as -> ->.
Qed.

Lemma initGame_Some (rs rs' : list N) (s : State) :
  initGame rs = Some (s, rs') ->
  exists p,
    s = set_smallFood {| position := p; direction := UP |}
          (set_snake
             [{| position := {| glm.x := windowWIDTH / 2.0;
                                glm.y := windowHEIGHT / 2.0 |};
                 direction := RIGHT |}]
             globals).
Proof.
  intros H. apply spawnFood_Some in H as (p & _ & ->). by exists p.
Qed.

(** ** Reachable states *)

(** The invariant rule: a property that holds when a session starts and is
    kept by the input mapper and by every tick of a running game holds in
    every reachable state. *)
Lemma reachable_invariant (P : State -> Prop) :
  (forall rs s rs', initGame rs = Some (s, rs') -> P s) ->
  (forall k s, P s -> P (processInput k s)) ->
  (forall t stale s rs s' rs',
     P s -> gameOver s = false -> tick t stale s rs = Some (s', rs') -> P s') ->
  forall s, reachable s -> P s.
Proof.
  intros Hinit Hinput Htick s Hr.
  induction Hr as [rs s rs' H|s k t stale rs s' out rs' Hr IH Hover H].
  - by eapply Hinit.
  - apply frame_Some in H as [H _].
    apply update_Some in H as [(_ & -> & ->)|(_ & Hover' & H)].
    + by apply Hinput.
    + eapply Htick; [apply Hinput, IH|exact Hover'|exact H].
Qed.

Lemma rounds_reachable (stale : glm.vec2) (inputs : list (Keys * Q))
    (s s' : State)
    (rs rs' : list N) :
  reachable s -> rounds stale inputs s rs = Some (s', rs') -> reachable s'.
Proof.
  revert s rs.
  induction inputs as [|[k t] rest IH]; intros s rs Hr H; simpl in H.
  - by apply ret_Some in H as [-> _].
  - destruct (gameOver s) eqn:Hover.
    + by apply ret_Some in H as [-> _].
    + apply bind_Some in H as ([s1 out] & rs1 & Hf & H).
      eapply IH; [|exact H]. simpl. eapply reachable_frame; eauto.
Qed.

Lemma play_reachable (stale : glm.vec2) (inputs : list (Keys * Q))
    (s : State)
    (rs rs' : list N) :
  play stale inputs rs = Some (s, rs') -> reachable s.
Proof.
  intros H. apply bind_Some in H as (s0 & rs0 & Hi & H).
  eapply rounds_reachable; [|exact H]. eapply reachable_init; eauto.
Qed.

Lemma advance_nonempty (d : Direction) (v : list Square) :
  v <> [] -> advance d v <> [].
Proof.
  intros Hne E. apply (f_equal length) in E.
  rewrite advance_length in E. by destruct v.
Qed.

Lemma grow_nonempty (n : nat) (v : list Square) : v <> [] -> grow n v <> [].
Proof.
  intros Hne E. apply (f_equal length) in E.
  rewrite grow_length in E by done. destruct v; [done|simpl in E; lia].
Qed.

Lemma eatSmallFood_snake (s s' : State) (rs rs' : list N) :
  eatSmallFood s rs = Some (s', rs') ->
  snake s' = if smallFoodHit s then grow 25 (snake s) else snake s.
Proof.
  intros H. apply eatSmallFood_Some in H as [(-> & -> & _)|(-> & p & _ & ->)].
  - done.
  - unfold afterSmallFood. cbv zeta. by destruct (_ =? 3)%Z.
Qed.

Lemma eatBigFood_snake (head : glm.vec2) (s s' : State) (rs rs' : list N) :
  eatBigFood head s rs = Some (s', rs') ->
  snake s' = if bigFoodHit head s then grow 75 (snake s) else snake s.
Proof.
  intros H. apply eatBigFood_Some in H as [(-> & -> & _)|(-> & p & _ & ->)];
    done.
Qed.

(** The vector is never empty. *)
Lemma reachable_nonempty (s : State) : reachable s -> snake s <> [].
Proof.
  apply (reachable_invariant (fun s => snake s <> [])).
  - intros rs s0 rs' H. apply initGame_Some in H as (p & ->). done.
  - intros k s0 H. by rewrite (proj1 (processInput_frame k s0)).
  - intros t stale s0 rs s' rs' H _ Ht.
    apply tick_Some in Ht as (s1 & rs1 & H1 & H2).
    apply eatSmallFood_snake in H1. apply eatBigFood_snake in H2.
    rewrite moved_snake in H1.
    assert (snake s1 <> []).
    { rewrite H1. destruct (smallFoodHit _);
        auto using grow_nonempty, advance_nonempty. }
    rewrite H2. destruct (bigFoodHit _ _); auto using grow_nonempty.
Qed.

(** The pending direction is never the reverse of the current one. *)
Lemma reachable_no_reverse (s : State) :
  reachable s -> nextDirection s <> opposite (currentDirection s).
Proof.
  apply (reachable_invariant
           (fun s => nextDirection s <> opposite (currentDirection s))).
  - intros rs s0 rs' H. apply initGame_Some in H as (p & ->). done.
  - intros k s0 H. rewrite (proj2 (proj2 (proj2 (proj2 (proj2 (proj2 (proj2
      (proj2 (proj2 (processInput_frame k s0)))))))))).
    unfold processInput.
    destruct (processArrows_nextDirection k (processCtrl k (processSpace k s0)))
      as [-> | Hn].
    + destruct (processCtrl_frame k (processSpace k s0))
        as (_ & _ & _ & _ & _ & _ & _ & _ & _ & _ & ->).
      destruct (processSpace_frame k s0)
        as (_ & _ & _ & _ & _ & _ & _ & _ & _ & _ & ->).
      exact H.
    + destruct (processCtrl_frame k (processSpace k s0))
        as (_ & _ & _ & _ & _ & _ & _ & _ & _ & Hc & _).
      destruct (processSpace_frame k s0)
        as (_ & _ & _ & _ & _ & _ & _ & _ & _ & Hs & _).
      by rewrite Hc, Hs in Hn.
  - intros t stale s0 rs s' rs' _ _ Ht.
    apply tick_Some in Ht as (s1 & rs1 & H1 & H2).
    assert (Hm : currentDirection (moved t s0) = nextDirection (moved t s0)).
    { destruct (moved_frame t s0) as (_ & _ & _ & _ & _ & _ & -> & ->). done. }
    assert (H1' : currentDirection s1 = nextDirection s1).
    { apply eatSmallFood_Some in H1 as [(_ & -> & _)|(_ & p & _ & ->)];
        [done|].
      unfold afterSmallFood. cbv zeta. by destruct (_ =? 3)%Z. }
    assert (H2' : currentDirection s' = nextDirection s').
    { apply eatBigFood_Some in H2 as [(_ & -> & _)|(_ & p & _ & ->)]; done. }
    rewrite H2'. by destruct (nextDirection s').
Qed.

(** *** C3: one food at a time *)

Lemma afterSmallFood_exactlyOneFood (s : State) (p : glm.vec2) :
  smallFoodHit s = true -> exactlyOneFood s ->
  exactlyOneFood (afterSmallFood s p).
Proof.
  unfold smallFoodHit, exactlyOneFood, afterSmallFood. cbv zeta.
  intros Hit%andb_true_iff Hone. destruct Hit as [Hsmall _].
  destruct (_ =? 3)%Z; simpl.
  - by right.
  - left. split; [done|]. destruct Hone as [[_ H]|[H _]]; congruence.
Qed.

Lemma tick_exactlyOneFood (t : Q) (stale : glm.vec2) (s s' : State)
    (rs rs' : list N) :
  exactlyOneFood s -> tick t stale s rs = Some (s', rs') -> exactlyOneFood s'.
Proof.
  intros Hone Ht. apply tick_Some in Ht as (s1 & rs1 & H1 & H2).
  assert (Hm : exactlyOneFood (moved t s)).
  { unfold exactlyOneFood.
    destruct (moved_frame t s) as (_ & -> & -> & _). exact Hone. }
  assert (H1' : exactlyOneFood s1).
  { apply eatSmallFood_Some in H1 as [(_ & -> & _)|(Hit & p & _ & ->)];
      [done|]. by apply afterSmallFood_exactlyOneFood. }
  apply eatBigFood_Some in H2 as [(_ & -> & _)|(Hit & p & _ & ->)]; [done|].
  by left.
Qed.

(** C3. In every state reachable once a session has started exactly one of
    the small and the large food is active, and every tick carries this
    from the state it starts in to the state it ends in. *)
Theorem exactly_one_food_active :
  (forall s, reachable s -> exactlyOneFood s) /\
  (forall t stale s rs s' rs',
     exactlyOneFood s -> tick t stale s rs = Some (s', rs') ->
     exactlyOneFood s').
Proof.
  split; [|intros t stale s rs s' rs'; apply tick_exactlyOneFood].
  apply (reachable_invariant exactlyOneFood).
  - intros rs s rs' H. apply initGame_Some in H as (p & ->). by left.
  - intros k s H. unfold exactlyOneFood.
    destruct (processInput_frame k s) as (_ & _ & _ & -> & -> & _). exact H.
  - intros t stale s rs s' rs' H _ Ht. by eapply tick_exactlyOneFood.
Qed.

(** ** What the two food steps write *)

Lemma afterSmallFood_fields (s : State) (p : glm.vec2) :
  snake (afterSmallFood s p) = grow 25 (snake s) /\
  score (afterSmallFood s p) = (score s + 1)%Z /\
  gameOver (afterSmallFood s p) = gameOver s /\
  currentDirection (afterSmallFood s p) = currentDirection s /\
  nextDirection (afterSmallFood s p) = nextDirection s.
Proof.
  unfold afterSmallFood. cbv zeta. destruct (_ =? 3)%Z; repeat split; done.
Qed.

Lemma afterBigFood_fields (s : State) (p : glm.vec2) :
  snake (afterBigFood s p) = grow 75 (snake s) /\
  score (afterBigFood s p) = (score s + 2)%Z /\
  gameOver (afterBigFood s p) = gameOver s /\
  currentDirection (afterBigFood s p) = currentDirection s /\
  nextDirection (afterBigFood s p) = nextDirection s.
Proof. repeat split; done. Qed.

(** Neither food step reads or writes the game-over flag or the
    directions. *)
Lemma eatSmallFood_keeps (s s' : State) (rs rs' : list N) :
  eatSmallFood s rs = Some (s', rs') ->
  gameOver s' = gameOver s /\ currentDirection s' = currentDirection s /\
  nextDirection s' = nextDirection s.
Proof.
  intros H. apply eatSmallFood_Some in H as [(_ & -> & _)|(_ & p & _ & ->)];
    [done|].
  destruct (afterSmallFood_fields s p) as (_ & _ & -> & -> & ->). done.
Qed.

Lemma eatBigFood_keeps (head : glm.vec2) (s s' : State) (rs rs' : list N) :
  eatBigFood head s rs = Some (s', rs') ->
  gameOver s' = gameOver s /\ currentDirection s' = currentDirection s /\
  nextDirection s' = nextDirection s.
Proof.
  intros H. apply eatBigFood_Some in H as [(_ & -> & _)|(_ & p & _ & ->)];
    done.
Qed.

Lemma tick_gameOver (t : Q) (stale : glm.vec2) (s s' : State)
    (rs rs' : list N) :
  tick t stale s rs = Some (s', rs') -> gameOver s' = gameOver (moved t s).
Proof.
  intros H. apply tick_Some in H as (s1 & rs1 & H1 & H2).
  apply eatSmallFood_keeps in H1 as (<- & _).
  by apply eatBigFood_keeps in H2 as (-> & _).
Qed.

Lemma tick_currentDirection (t : Q) (stale : glm.vec2) (s s' : State)
    (rs rs' : list N) :
  tick t stale s rs = Some (s', rs') -> currentDirection s' = nextDirection s.
Proof.
  intros H. apply tick_Some in H as (s1 & rs1 & H1 & H2).
  apply eatSmallFood_keeps in H1 as (_ & H1 & _).
  apply eatBigFood_keeps in H2 as (_ & -> & _). rewrite H1.
  by destruct (moved_frame t s) as (_ & _ & _ & _ & _ & _ & -> & _).
Qed.

(** ** The two collision tests *)

Lemma collides_true (head : glm.vec2) (body : list Square) :
  collides head body = true <->
  exists i seg,
    body !! i = Some seg /\
    (glm.distance2 head (position seg) < 2.5 * 2.5)%Q.
Proof.
  induction body as [|seg0 rest IH]; simpl.
  - split; [done|]. by intros (i & seg & H & _).
  - destruct (glm.distance_lt head (position seg0) MOVE_STRIDE) eqn:E.
    + split; [|done]. intros _. exists 0%nat, seg0. split; [done|].
      by apply distance_lt_true in E.
    + rewrite IH. split.
      * intros (i & seg & H & Hd). by exists (S i), seg.
      * intros (i & seg & H & Hd). destruct i as [|i].
        -- injection H as <-. apply distance_lt_false in E.
           unfold MOVE_STRIDE in E. lra.
        -- by exists i, seg.
Qed.

Lemma selfCollision_true (v : list Square) :
  selfCollision v = true <-> touchesBody v.
Proof.
  unfold selfCollision, touchesBody. rewrite collides_true. split.
  - intros (i & seg & H & Hd). exists (S i), seg.
    rewrite lookup_drop in H. split; [lia|]. by split.
  - intros (i & seg & Hi & H & Hd). exists (i - 1)%nat, seg.
    rewrite lookup_drop. replace (1 + (i - 1))%nat with i by lia. by split.
Qed.

(** *** C5: game over *)

(** C5, as amended. On a tick of a running game the state becomes game
    over exactly when the advanced head lies outside the playable rectangle
    (left of 60, at or right of 740, below 60 - 17 = 43, at or above 540)
    or lies within the step distance 2.5 of another segment; and once game
    over holds the guarded tick of a round changes nothing and draws no
    random number. *)
Theorem gameOver_exactly_when :
  (forall t stale s rs s' rs',
     gameOver s = false ->
     tick t stale s rs = Some (s', rs') ->
     let v := advance (nextDirection s) (snake s) in
     let head := head_position v in
     gameOver s' = true <->
       ((glm.x head < 60 \/ 740 <= glm.x head \/
         glm.y head < 60 - 17 \/ 540 <= glm.y head)%Q \/
        touchesBody v)) /\
  (forall t stale s rs,
     gameOver s = true -> update t stale s rs = Some (s, rs)).
Proof.
  split.
  - intros t stale s rs s' rs' Hrun Ht v head.
    rewrite (tick_gameOver _ _ _ _ _ _ Ht), moved_gameOver, Hrun. simpl.
    fold v. fold head. rewrite orb_true_iff, selfCollision_true.
    assert (Hw : hitsWall head = true <->
                 (glm.x head < 60 \/ 740 <= glm.x head \/
                  glm.y head < 60 - 17 \/ 540 <= glm.y head)%Q).
    { unfold hitsWall. rewrite !orb_true_iff, !Qltb_true, !Qgeb_true.
      unfold WALL_THICKNESS, windowWIDTH, windowHEIGHT. split.
      - intros [[[H|H]|H]|H]; [left|right; left|right; right; left|
                               right; right; right]; lra.
      - intros [H|[H|[H|H]]]; [left; left; left|left; left; right|
                               left; right|right]; lra. }
    by rewrite Hw.
  - intros t stale s rs Hover. unfold update. cbv zeta. rewrite Hover.
    by rewrite andb_false_r.
Qed.

(** *** C9: the reverse of the current direction *)

Lemma processArrows_reverse (k : Keys) (s : State) :
  intent (opposite (currentDirection s)) k -> processArrows k s = s.
Proof.
  intros Hi.
  pose proof (Hi UP) as Hu. pose proof (Hi DOWN) as Hd.
  pose proof (Hi LEFT) as Hl. pose proof (Hi RIGHT) as Hr.
  unfold processArrows. simpl in Hu, Hd, Hl, Hr.
  destruct (currentDirection s); simpl in *; rewrite Hu, Hd, Hl, Hr; done.
Qed.

Lemma processInput_reverse (k : Keys) (s : State) :
  intent (opposite (currentDirection s)) k ->
  nextDirection (processInput k s) = nextDirection s.
Proof.
  intros Hi. unfold processInput.
  destruct (processCtrl_frame k (processSpace k s))
    as (_ & _ & _ & _ & _ & _ & _ & _ & _ & Hc & Hn).
  destruct (processSpace_frame k s)
    as (_ & _ & _ & _ & _ & _ & _ & _ & _ & Hc' & Hn').
  rewrite processArrows_reverse by (by rewrite Hc, Hc').
  by rewrite Hn, Hn'.
Qed.

(** C9, as amended. When the direction intent is the exact reverse of the
    current direction [d], the input mapper leaves the pending direction
    unchanged.  The next tick commits that unchanged pending direction,
    which is never the reverse of [d]; the current direction persists at
    that tick exactly when the pending direction was [d] already. *)
Theorem reverse_intent_keeps_pending (s : State) (k : Keys) :
  reachable s ->
  intent (opposite (currentDirection s)) k ->
  nextDirection (processInput k s) = nextDirection s /\
  nextDirection s <> opposite (currentDirection s) /\
  (forall t stale rs s' rs',
     tick t stale (processInput k s) rs = Some (s', rs') ->
     currentDirection s' = nextDirection s /\
     (currentDirection s' = currentDirection s <->
      nextDirection s = currentDirection s)).
Proof.
  intros Hr Hi. pose proof (processInput_reverse k s Hi) as Hn.
  split; [exact Hn|]. split; [by apply reachable_no_reverse|].
  intros t stale rs s' rs' Ht. apply tick_currentDirection in Ht.
  rewrite Hn in Ht. by rewrite Ht.
Qed.

(** *** C10: the fatal tick still eats *)

Lemma eatSmallFood_growth (s s' : State) (rs rs' : list N) :
  snake s <> [] ->
  eatSmallFood s rs = Some (s', rs') ->
  snake s' <> [] /\
  if smallFoodHit s
  then score s' = (score s + 1)%Z /\
       length (snake s') = (length (snake s) + 25)%nat
  else s' = s.
Proof.
  intros Hne H.
  apply eatSmallFood_Some in H as [(-> & -> & _)|(-> & p & _ & ->)]; [done|].
  destruct (afterSmallFood_fields s p) as (-> & -> & _).
  split; [by apply grow_nonempty|]. split; [done|by apply grow_length].
Qed.

Lemma eatBigFood_growth (head : glm.vec2) (s s' : State) (rs rs' : list N) :
  snake s <> [] ->
  eatBigFood head s rs = Some (s', rs') ->
  if bigFoodHit head s
  then score s' = (score s + 2)%Z /\
       length (snake s') = (length (snake s) + 75)%nat
  else s' = s.
Proof.
  intros Hne H.
  apply eatBigFood_Some in H as [(-> & -> & _)|(-> & p & _ & ->)]; [done|].
  destruct (afterBigFood_fields s p) as (-> & -> & _).
  split; [done|by apply grow_length].
Qed.

(** C10. On the tick whose wall test or body test sets the game-over flag
    the two food tests still run: when the fatal head position is in range
    of the active small food the snake grows by 25 and the score by 1 (and
    by 75 and 2 more if the large-food test fires after it), when it is in
    range of the active large food the snake grows by 75 and the score by
    2; the score written at the end of that round is the score after these
    increments. *)
Theorem fatal_tick_still_eats (k : Keys) (t : Q) (stale : glm.vec2)
    (s s' : State) (out : option Z) (rs rs' : list N) :
  snake s <> [] ->
  gameOver s = false ->
  Qgeb (t - lastMoveTime s) (GAME_SPEED (processInput k s)) = true ->
  frame k t stale s rs = Some (s', out, rs') ->
  let m := moved t (processInput k s) in
  hitsWall (head_position (snake m)) = true \/ selfCollision (snake m) = true ->
  gameOver s' = true /\
  out = Some (score s') /\
  (smallFoodHit m = true ->
     (score s' = (score s + 1)%Z /\
      length (snake s') = (length (snake s) + 25)%nat) \/
     (score s' = (score s + 3)%Z /\
      length (snake s') = (length (snake s) + 100)%nat)) /\
  (smallFoodHit m = false -> bigFoodHit (head_position (snake m)) m = true ->
     score s' = (score s + 2)%Z /\
     length (snake s') = (length (snake s) + 75)%nat).
Proof.
  intros Hne Hrun Hdue Hf m Hfatal.
  apply frame_Some in Hf as [Hu ->].
  destruct (processInput_frame k s)
    as (Hsnake & Hscore & Hover & _ & _ & _ & _ & _ & Hlast & _).
  apply update_Some in Hu as [(Hno & _)|(_ & _ & Ht)].
  { rewrite Hlast, Hdue, Hover, Hrun in Hno. discriminate. }
  assert (Hgo : gameOver s' = true).
  { rewrite (tick_gameOver _ _ _ _ _ _ Ht), moved_gameOver.
    subst m. rewrite moved_snake in Hfatal.
    destruct Hfatal as [-> | ->]; by rewrite ?orb_true_r. }
  rewrite Hgo. split; [done|]. split; [done|].
  apply tick_Some in Ht as (s1 & rs1 & H1 & H2). fold m in H1.
  assert (Hm : snake m <> []).
  { subst m. rewrite moved_snake, Hsnake. by apply advance_nonempty. }
  assert (Hlen : length (snake m) = length (snake s)).
  { subst m. by rewrite moved_snake, advance_length, Hsnake. }
  assert (Hsc : score m = score s).
  { subst m. destruct (moved_frame t (processInput k s)) as (-> & _). done. }
  apply eatSmallFood_growth in H1 as [Hne1 H1]; [|done].
  apply eatBigFood_growth in H2; [|done].
  split.
  - intros Hit. rewrite Hit in H1. destruct H1 as [Hs1 Hl1].
    destruct (bigFoodHit _ s1).
    + right. destruct H2 as [-> ->]. rewrite Hs1, Hl1, Hsc, Hlen. lia.
    + left. subst s'. rewrite Hs1, Hl1, Hsc, Hlen. done.
  - intros Hno Hit. rewrite Hno in H1. subst s1.
    rewrite (headRead_silent _ _ _ Hno), Hit in H2.
    destruct H2 as [-> ->]. by rewrite Hsc, Hlen.
Qed.

(** *** Remark: a wall never kills within reach of food *)

Lemma sq_far (a b : Q) :
  (40 <= b - a \/ 40 <= a - b)%Q -> (40 * 40 <= glm.sq (a - b))%Q.
Proof. unfold glm.sq. intros [H|H]; nra. Qed.

Lemma sq_nonneg (a : Q) : (0 <= glm.sq a)%Q.
Proof. unfold glm.sq. nra. Qed.

(** A point that fails the wall test is at least 40 away from every point
    of the field in which food is placed. *)
Lemma wall_out_of_range (p q : glm.vec2) :
  hitsWall p = true -> inField q -> (40 * 40 <= glm.distance2 p q)%Q.
Proof.
  intros Hw (Hx1 & Hx2 & Hy1 & Hy2).
  unfold hitsWall in Hw. rewrite !orb_true_iff, !Qltb_true, !Qgeb_true in Hw.
  unfold WALL_THICKNESS, windowWIDTH, windowHEIGHT in Hw.
  unfold glm.distance2.
  pose proof (sq_nonneg (glm.x p - glm.x q)).
  pose proof (sq_nonneg (glm.y p - glm.y q)).
  destruct Hw as [[[H1|H1]|H1]|H1].
  - pose proof (sq_far (glm.x p) (glm.x q)) as F. lra.
  - pose proof (sq_far (glm.x p) (glm.x q)) as F. lra.
  - pose proof (sq_far (glm.y p) (glm.y q)) as F. lra.
  - pose proof (sq_far (glm.y p) (glm.y q)) as F. lra.
Qed.

(** The small food always lies in the field, the large food whenever it is
    active. *)
Lemma reachable_foodsInField (s : State) : reachable s -> foodsInField s.
Proof.
  apply (reachable_invariant foodsInField).
  - intros rs s0 rs' H. apply spawnFood_Some in H as (p & Hp & ->).
    split; [|done]. simpl. by eapply spawn_inField.
  - intros k s0 H. unfold foodsInField.
    destruct (processInput_frame k s0)
      as (_ & _ & _ & _ & -> & _ & -> & -> & _). exact H.
  - intros t stale s0 rs s' rs' [Hs Hb] _ Ht.
    apply tick_Some in Ht as (s1 & rs1 & H1 & H2).
    assert (Hm : foodsInField (moved t s0)).
    { unfold foodsInField.
      destruct (moved_frame t s0) as (_ & _ & -> & _ & -> & -> & _).
      by split. }
    assert (H1' : foodsInField s1).
    { apply eatSmallFood_Some in H1 as [(_ & -> & _)|(_ & p & Hp & ->)];
        [done|].
      apply spawn_inField in Hp. destruct Hm as [Hms Hmb].
      unfold foodsInField, afterSmallFood. cbv zeta.
      destruct (_ =? 3)%Z; simpl; by split. }
    apply eatBigFood_Some in H2 as [(_ & -> & _)|(_ & p & Hp & ->)]; [done|].
    apply spawn_inField in Hp. by split.
Qed.

(** X14. In a reachable game the tick in which the head leaves the
    playable rectangle eats nothing: the conditional of C10 is met by
    collisions of the snake with itself only. *)
Lemma wall_fatal_tick_eats_nothing (k : Keys) (t : Q) (s : State) :
  reachable s ->
  let m := moved t (processInput k s) in
  hitsWall (head_position (snake m)) = true ->
  smallFoodHit m = false /\ bigFoodHit (head_position (snake m)) m = false.
Proof.
  intros Hr m Hw. apply reachable_foodsInField in Hr as [Hs Hb].
  destruct (processInput_frame k s)
    as (_ & _ & _ & _ & Hbg & _ & Hsf & Hbf & _).
  destruct (moved_frame t (processInput k s))
    as (_ & _ & Hbg' & _ & Hsf' & Hbf' & _). fold m in Hbg', Hsf', Hbf'.
  split.
  - unfold smallFoodHit. apply andb_false_iff. right.
    apply distance_lt_false. rewrite Hsf', Hsf.
    pose proof (wall_out_of_range _ _ Hw Hs). unfold SQUARE_SIZE. lra.
  - unfold bigFoodHit. rewrite Hbg', Hbg, Hbf', Hbf.
    destruct (bigFoodOnScreen s) eqn:E; [|done]. simpl.
    apply distance_lt_false.
    pose proof (wall_out_of_range _ _ Hw (Hb eq_refl)). unfold SQUARE_SIZE. lra.
Qed.

(** ** Concrete sessions *)

(** A tick depends on what a dangling read finds only through the outcome
    of the large-food test. *)
Lemma tick_stale (t : Q) (stale stale' : glm.vec2) (s : State) (rs : list N) :
  (forall s1 rs1,
     eatSmallFood (moved t s) rs = Some (s1, rs1) ->
     bigFoodHit (headRead stale (moved t s) s1) s1 =
     bigFoodHit (headRead stale' (moved t s) s1) s1) ->
  tick t stale s rs = tick t stale' s rs.
Proof.
  intros H. unfold tick, bind. cbv zeta.
  destruct (eatSmallFood (moved t s) rs) as [[s1 rs1]|] eqn:E; [|done].
  unfold eatBigFood. by rewrite (H _ _ eq_refl).
Qed.

(** So does a round. *)
Lemma frame_stale (k : Keys) (t : Q) (stale stale' : glm.vec2) (s : State)
    (rs : list N) :
  (forall s1 rs1,
     eatSmallFood (moved t (processInput k s)) rs = Some (s1, rs1) ->
     bigFoodHit (headRead stale (moved t (processInput k s)) s1) s1 =
     bigFoodHit (headRead stale' (moved t (processInput k s)) s1) s1) ->
  frame k t stale s rs = frame k t stale' s rs.
Proof.
  intros H. unfold frame, bind, update. cbv zeta.
  destruct (_ && _); [|done]. by rewrite (tick_stale _ stale stale').
Qed.

(** Two sessions agree if their first rounds agree and the sessions after
    them do. *)
Lemma rounds_stale (stale stale' : glm.vec2) (k : Keys) (t : Q)
    (rest : list (Keys * Q)) (s s' : State) (out : option Z)
    (rs rs' : list N) :
  gameOver s = false ->
  frame k t stale s rs = frame k t stale' s rs ->
  frame k t stale' s rs = Some (s', out, rs') ->
  rounds stale rest s' rs' = rounds stale' rest s' rs' ->
  rounds stale ((k, t) :: rest) s rs = rounds stale' ((k, t) :: rest) s rs.
Proof.
  intros Hrun Hf Hf' Hr. simpl. unfold bind. by rewrite Hrun, Hf, Hf'.
Qed.

(** The sessions below are run with [freed] for the dangling reads.  The
    session of the square has none that matters: the large food never
    appears in it. *)
Lemma loop_any_stale (stale : glm.vec2) :
  play stale loop_inputs loop_rand = play freed loop_inputs loop_rand.
Proof. vm_compute. reflexivity. Qed.

(** The session of the second cycle has one dangling read: on the third
    bite, whose 25 pushes take the snake from 51 to 76 cells in a storage
    of 64, and which spawns the large food at (450,300), 42.5 from the
    head.  The session runs as with [freed] whenever that read finds a
    position at least 40 away from this food, as it does when the freed
    cell still holds the head, (407.5,300). *)
Lemma secondCycle_any_stale (stale : glm.vec2) :
  glm.distance_lt stale {| glm.x := 450; glm.y := 300 |} (SQUARE_SIZE * 2)
    = false ->
  play stale secondCycle_inputs secondCycle_rand =
  play freed secondCycle_inputs secondCycle_rand.
Proof.
  intros Hfar. unfold play, bind.
  destruct (initGame secondCycle_rand) as [[s0 rs0]|] eqn:E0; [|done].
  vm_compute in E0. injection E0 as <- <-.
  unfold secondCycle_inputs.
  eapply rounds_stale; [vm_compute; reflexivity..|].
  eapply rounds_stale; [vm_compute; reflexivity..|].
  eapply rounds_stale;
    [vm_compute; reflexivity| |vm_compute; reflexivity|vm_compute; reflexivity].
  apply frame_stale. intros s1 rs1 H1.
  vm_compute in H1. injection H1 as <- <-.
  transitivity false; [exact Hfar|vm_compute; reflexivity].
Qed.

(** So does the session of the last bite, whose third bite spawns the
    large food at (377,272). *)
Lemma lastBite_any_stale (stale : glm.vec2) :
  glm.distance_lt stale {| glm.x := 377; glm.y := 272 |} (SQUARE_SIZE * 2)
    = false ->
  play stale lastBite_inputs lastBite_rand =
  play freed lastBite_inputs lastBite_rand.
Proof.
  intros Hfar. unfold play, bind.
  destruct (initGame lastBite_rand) as [[s0 rs0]|] eqn:E0; [|done].
  vm_compute in E0. injection E0 as <- <-.
  unfold lastBite_inputs.
  eapply rounds_stale; [vm_compute; reflexivity..|].
  eapply rounds_stale; [vm_compute; reflexivity..|].
  eapply rounds_stale;
    [vm_compute; reflexivity| |vm_compute; reflexivity|vm_compute; reflexivity].
  apply frame_stale. intros s1 rs1 H1.
  vm_compute in H1. injection H1 as <- <-.
  transitivity false; [exact Hfar|vm_compute; reflexivity].
Qed.

Lemma secondCycle_reachable :
  reachable (stateOf (play freed secondCycle_inputs secondCycle_rand)).
Proof.
  apply (play_reachable freed secondCycle_inputs _ secondCycle_rand
           (restOf (play freed secondCycle_inputs secondCycle_rand))).
  vm_compute. reflexivity.
Qed.

Lemma lastBite_reachable :
  reachable (stateOf (play freed lastBite_inputs lastBite_rand)).
Proof.
  apply (play_reachable freed lastBite_inputs _ lastBite_rand
           (restOf (play freed lastBite_inputs lastBite_rand))).
  vm_compute. reflexivity.
Qed.

Lemma loop_reachable : reachable (stateOf (play freed loop_inputs loop_rand)).
Proof.
  apply (play_reachable freed loop_inputs _ loop_rand
           (restOf (play freed loop_inputs loop_rand))).
  vm_compute. reflexivity.
Qed.

Lemma earlyUp_reachable :
  reachable (stateOf (play freed earlyUp_inputs earlyUp_rand)).
Proof.
  apply (play_reachable freed earlyUp_inputs _ earlyUp_rand
           (restOf (play freed earlyUp_inputs earlyUp_rand))).
  vm_compute. reflexivity.
Qed.

Lemma fresh_reachable : reachable (stateOf (initGame earlyUp_rand)).
Proof.
  apply (reachable_init earlyUp_rand _ (restOf (initGame earlyUp_rand))).
  vm_compute. reflexivity.
Qed.

(** *** C1: both growth branches in one tick *)

(** C1 fails on the code. After seven ticks the snake has 201 segments in
    a storage of 256 cells, its head at (417.5,300), counter 2, score 7.
    The eighth tick takes the head to (420,300) and eats the small food at
    (438,300); the 25 pushes fit the storage, so the reference [head] stays
    sound.  The counter reaches 3 and the large food is spawned at
    (441,300), 21 from the head: far enough for the spawner, which asks for
    20, and near enough for the large-food test, which asks for less than
    40.  That test runs next in the same tick and fires, whatever freed
    storage may hold: the snake grows by 25 and by 75, the score by 1 and
    by 2. *)
Theorem fitting_bite_fires_both :
  let s := stateOf (play freed secondCycle_inputs secondCycle_rand) in
  let rs := restOf (play freed secondCycle_inputs secondCycle_rand) in
  let m := moved 8 (processInput noKeys s) in
  let s1 := stateOf (eatSmallFood m rs) in
  let rs1 := restOf (eatSmallFood m rs) in
  reachable s /\ gameOver s = false /\ rs = [341; 200; 0; 0]%N /\
  length (snake m) = 201%nat /\ capacity (length (snake m)) = 256%nat /\
  reallocates (length (snake m)) 25 = false /\
  (glm.x (head_position (snake m)) == 420 /\
   glm.y (head_position (snake m)) == 300)%Q /\
  smallFoodHit m = true /\
  eatSmallFood m rs = Some (s1, rs1) /\
  (glm.x (position (bigFood s1)) == 441 /\
   glm.y (position (bigFood s1)) == 300)%Q /\
  forall stale,
    headRead stale m s1 = head_position (snake s1) /\
    bigFoodHit (headRead stale m s1) s1 = true /\
    exists s',
      tick 8 stale (processInput noKeys s) rs = Some (s', []) /\
      length (snake s') = (length (snake s) + 25 + 75)%nat /\
      score s' = (score s + 1 + 2)%Z.
Proof.
  cbv zeta. split; [exact secondCycle_reachable|].
  do 5 (split; [vm_compute; reflexivity|]).
  split; [split; vm_compute; reflexivity|].
  split; [vm_compute; reflexivity|]. split; [vm_compute; reflexivity|].
  split; [split; vm_compute; reflexivity|].
  intros stale. split; [vm_compute; reflexivity|].
  split; [vm_compute; reflexivity|].
  eexists. split; [vm_compute; reflexivity|].
  split; vm_compute; reflexivity.
Qed.

(** *** C2: the small-food step *)

(** The small-food step by itself does what the specification says of
    it. *)
Lemma small_food_step (s s' : State) (rs rs' : list N) :
  snake s <> [] ->
  smallFoodHit s = true ->
  eatSmallFood s rs = Some (s', rs') ->
  length (snake s') = (length (snake s) + 25)%nat /\
  score s' = (score s + 1)%Z /\
  if (smallFoodEaten s + 1 =? 3)%Z
  then bigFoodOnScreen s' = true /\ smallFoodOnScreen s' = false /\
       smallFoodEaten s' = 0%Z /\
       (forall seg, seg ∈ snake s' ->
          (20 * 20 <= glm.distance2 (position seg) (position (bigFood s')))%Q)
  else smallFoodOnScreen s' = true /\
       bigFoodOnScreen s' = bigFoodOnScreen s /\
       smallFoodEaten s' = (smallFoodEaten s + 1)%Z /\
       (forall seg, seg ∈ snake s' ->
          (20 * 20 <= glm.distance2 (position seg) (position (smallFood s')))%Q).
Proof.
  intros Hne Hit H.
  apply eatSmallFood_Some in H as [(Hno & _)|(_ & p & Hp & ->)];
    [congruence|].
  destruct (afterSmallFood_fields s p) as (Hsn & Hsc & _).
  rewrite Hsn, Hsc. split; [by apply grow_length|]. split; [done|].
  pose proof (spawn_far _ _ _ _ Hp) as Hfar.
  unfold afterSmallFood in *. cbv zeta in *. simpl in *.
  destruct (smallFoodEaten s + 1 =? 3)%Z; simpl in *; repeat split; done.
Qed.

(** On a tick that starts with exactly one food active and does not bring
    the counter to 3 the large-food test stays silent, and the tick is the
    small-food step. *)
Lemma small_food_tick (t : Q) (stale : glm.vec2) (s s' : State)
    (rs rs' : list N) :
  snake s <> [] ->
  exactlyOneFood s ->
  smallFoodHit (moved t s) = true ->
  (smallFoodEaten s + 1)%Z <> 3%Z ->
  tick t stale s rs = Some (s', rs') ->
  length (snake s') = (length (snake s) + 25)%nat /\
  score s' = (score s + 1)%Z /\
  smallFoodEaten s' = (smallFoodEaten s + 1)%Z /\
  smallFoodOnScreen s' = true /\ bigFoodOnScreen s' = false /\
  (forall seg, seg ∈ snake s' ->
     (20 * 20 <= glm.distance2 (position seg) (position (smallFood s')))%Q).
Proof.
  intros Hne Hone Hit Hcnt Ht.
  apply tick_Some in Ht as (s1 & rs1 & H1 & H2).
  destruct (moved_frame t s) as (Hsc & Hsm & Hbg & Hea & _).
  assert (Hm : snake (moved t s) <> []).
  { rewrite moved_snake. by apply advance_nonempty. }
  assert (Hbig : bigFoodOnScreen s = false).
  { unfold smallFoodHit in Hit. apply andb_true_iff in Hit as [Hs _].
    rewrite Hsm in Hs. destruct Hone as [[_ H]|[H _]]; congruence. }
  pose proof (small_food_step _ _ _ _ Hm Hit H1) as (Hl & Hs & Hrest).
  rewrite Hea in Hrest. apply Z.eqb_neq in Hcnt. rewrite Hcnt in Hrest.
  destruct Hrest as (Hs1 & Hb1 & He1 & Hfar).
  rewrite Hbg, Hbig in Hb1.
  apply eatBigFood_Some in H2 as [(_ & -> & _)|(Hit2 & _)].
  - rewrite Hl, Hs, moved_snake, advance_length, Hsc. done.
  - unfold bigFoodHit in Hit2. rewrite Hb1 in Hit2. discriminate.
Qed.

(** X17. On a tick that starts with the large food active the small-food
    test stays silent and only the large-food step can fire: the snake
    grows by 75 and the score by 2, with the small food active again, or
    the tick leaves the state as the movement has left it. *)
Lemma large_food_tick (t : Q) (stale : glm.vec2) (s s' : State)
    (rs rs' : list N) :
  snake s <> [] ->
  exactlyOneFood s ->
  bigFoodOnScreen s = true ->
  tick t stale s rs = Some (s', rs') ->
  smallFoodHit (moved t s) = false /\
  if bigFoodHit (head_position (snake (moved t s))) (moved t s)
  then score s' = (score s + 2)%Z /\
       length (snake s') = (length (snake s) + 75)%nat /\
       smallFoodOnScreen s' = true /\ bigFoodOnScreen s' = false
  else s' = moved t s.
Proof.
  intros Hne Hone Hbig Ht.
  destruct (moved_frame t s) as (Hsc & Hsm & _).
  assert (Hno : smallFoodHit (moved t s) = false).
  { unfold smallFoodHit. rewrite Hsm.
    destruct Hone as [[_ H]|[-> _]]; [congruence|done]. }
  split; [exact Hno|].
  apply tick_Some in Ht as (s1 & rs1 & H1 & H2).
  apply eatSmallFood_Some in H1 as [(_ & -> & ->)|(Hit & _)]; [|congruence].
  rewrite (headRead_silent _ _ _ Hno) in H2.
  apply eatBigFood_Some in H2 as [(-> & -> & _)|(-> & p & _ & ->)]; [done|].
  destruct (afterBigFood_fields (moved t s) p) as (-> & -> & _).
  rewrite grow_length by (rewrite moved_snake; by apply advance_nonempty).
  rewrite moved_snake, advance_length, Hsc. done.
Qed.

(** X18. Both tests can fire in one tick only when the small-food step
    brings the counter to 3.  The large food it has just spawned then lies less
    than 40 from the position the read of [head] yields, and at least 20
    from the head of the snake. *)
Lemma both_fire_only_on_third (t : Q) (head : glm.vec2) (s s1 : State)
    (rs rs1 : list N) :
  snake s <> [] ->
  exactlyOneFood s ->
  smallFoodHit (moved t s) = true ->
  eatSmallFood (moved t s) rs = Some (s1, rs1) ->
  bigFoodHit head s1 = true ->
  (smallFoodEaten s + 1)%Z = 3%Z /\
  (glm.distance2 head (position (bigFood s1)) < 40 * 40 /\
   20 * 20
   <= glm.distance2 (head_position (snake s1)) (position (bigFood s1)))%Q.
Proof.
  intros Hne Hone Hit H1 Hbig.
  destruct (moved_frame t s) as (_ & Hsm & Hbg & Hea & _).
  assert (Hm : snake (moved t s) <> []).
  { rewrite moved_snake. by apply advance_nonempty. }
  assert (Hb0 : bigFoodOnScreen s = false).
  { unfold smallFoodHit in Hit. apply andb_true_iff in Hit as [Hs _].
    rewrite Hsm in Hs. destruct Hone as [[_ H]|[H _]]; congruence. }
  pose proof (eatSmallFood_growth _ _ _ _ Hm H1) as [Hne1 _].
  pose proof (small_food_step _ _ _ _ Hm Hit H1) as (_ & _ & Hrest).
  rewrite Hea in Hrest. unfold bigFoodHit in Hbig.
  apply andb_true_iff in Hbig as [Hon Hnear].
  destruct (smallFoodEaten s + 1 =? 3)%Z eqn:E3.
  - split; [by apply Z.eqb_eq|]. destruct Hrest as (_ & _ & _ & Hfar).
    apply distance_lt_true in Hnear. unfold SQUARE_SIZE in Hnear.
    split; [lra|]. unfold head_position.
    destruct (snake s1) as [|h rest] eqn:Es; [done|]. simpl.
    apply Hfar. apply list_elem_of_here.
  - destruct Hrest as (_ & Hb1 & _). congruence.
Qed.

(** X19. The scenario of the specification: the first tick of a fresh game
    that finds the small food in range ends with score 1, 26 segments,
    counter 1 and a new small food clear of the snake. *)
Lemma fresh_game_first_bite (k : Keys) (t : Q) (stale : glm.vec2)
    (s s' : State) (rs0 rs rs' : list N) :
  initGame rs0 = Some (s, rs) ->
  smallFoodHit (moved t (processInput k s)) = true ->
  tick t stale (processInput k s) rs = Some (s', rs') ->
  score s' = 1%Z /\ length (snake s') = 26%nat /\ smallFoodEaten s' = 1%Z /\
  smallFoodOnScreen s' = true /\ bigFoodOnScreen s' = false /\
  (forall seg, seg ∈ snake s' ->
     (20 * 20 <= glm.distance2 (position seg) (position (smallFood s')))%Q).
Proof.
  intros Hi Hit Ht.
  destruct (processInput_frame k s)
    as (Hsn & Hsc & _ & Hsm & Hbg & Hea & _).
  apply initGame_Some in Hi as (p & Hs).
  assert (Hf : snake s <> [] /\ score s = 0%Z /\ smallFoodEaten s = 0%Z /\
               length (snake s) = 1%nat /\ exactlyOneFood s).
  { subst s. repeat split; try done. by left. }
  destruct Hf as (Hne & Hsc0 & Hea0 & Hlen & Hone).
  eapply small_food_tick in Ht; [|by rewrite Hsn| |done|].
  - rewrite Hsn, Hsc, Hea, Hsc0, Hea0, Hlen in Ht.
    destruct Ht as (H1 & H2 & H3 & H4 & H5 & H6). done.
  - unfold exactlyOneFood. by rewrite Hsm, Hbg.
  - rewrite Hea, Hea0. done.
Qed.

(** C2 fails on the code, by the defect of C1. At the eighth tick of the
    same session the small food is active and in range, the counter goes
    from 2 to 3 and the 25 new segments fit the storage of the snake.
    Whatever a freed cell would hold, the round ends with 100 more
    segments, not 25, with the score up by 3, not 1, and with the small
    food active and the large food inactive again. *)
Theorem fitting_bite_tick_outcome :
  let s := stateOf (play freed secondCycle_inputs secondCycle_rand) in
  let rs := restOf (play freed secondCycle_inputs secondCycle_rand) in
  let m := moved 8 (processInput noKeys s) in
  reachable s /\ gameOver s = false /\
  smallFoodOnScreen m = true /\
  glm.distance_lt (head_position (snake m)) (position (smallFood m))
    SQUARE_SIZE = true /\
  smallFoodEaten s = 2%Z /\ score s = 7%Z /\ length (snake s) = 201%nat /\
  reallocates (length (snake m)) 25 = false /\
  forall stale,
    exists s',
      frame noKeys 8 stale s rs = Some (s', None, []) /\
      length (snake s') = (length (snake s) + 100)%nat /\
      score s' = (score s + 3)%Z /\
      smallFoodEaten s' = 0%Z /\
      smallFoodOnScreen s' = true /\ bigFoodOnScreen s' = false.
Proof.
  cbv zeta. split; [exact secondCycle_reachable|].
  do 7 (split; [vm_compute; reflexivity|]).
  intros stale. eexists. split; [vm_compute; reflexivity|].
  do 4 (split; [vm_compute; reflexivity|]).
  vm_compute; reflexivity.
Qed.

(** *** C4: the speed keys *)


(** A released speed key restores the baseline exactly when the flag of the
    other speed key is down; otherwise the interval stays as it is. *)
Lemma release_restores (k : Keys) (s : State) :
  (KEY_SPACE k = false ->
   GAME_SPEED (processSpace k s) =
     if ctrlPressed s then GAME_SPEED s else game_speed_controller) /\
  (KEY_LEFT_CONTROL k = false ->
   GAME_SPEED (processCtrl k s) =
     if spacePressed s then GAME_SPEED s else game_speed_controller).
Proof.
  split; intros Hk.
  - unfold processSpace. rewrite Hk. simpl. by destruct (ctrlPressed s).
  - unfold processCtrl. rewrite Hk. simpl. by destruct (spacePressed s).
Qed.

(** C4 fails on the code. In a fresh game, at the baseline interval 0.012,
    a press of the space bar (announced as the key that slows the game
    down) sets the interval to 0.012 - 0.005: ticks come sooner. *)
Theorem space_press_shortens_interval :
  let s := stateOf (initGame earlyUp_rand) in
  reachable s /\
  GAME_SPEED s = game_speed_controller /\
  spacePressed s = false /\ ctrlPressed s = false /\
  GAME_SPEED (processInput spaceKey s) = (0.012 - 0.005)%Q /\
  (GAME_SPEED (processInput spaceKey s) < GAME_SPEED s)%Q.
Proof.
  cbv zeta. split; [exact fresh_reachable|].
  do 4 (split; [vm_compute; reflexivity|]).
  vm_compute. reflexivity.
Qed.

(** *** Counterexamples to C5 and C9 as they are worded *)

(** C5 as worded fails: after one bite and a square of four ticks the head
    comes back to (402.5,300), well inside the walls, onto its own fourth
    segment; the tick ends the game although no wall is touched. *)
Lemma self_collision_inside_walls :
  let s := stateOf (play freed loop_inputs loop_rand) in
  let s0 := processInput rightKey s in
  let head := head_position (advance (nextDirection s0) (snake s0)) in
  reachable s /\ gameOver s = false /\
  (glm.x head == 402.5 /\ glm.y head == 300)%Q /\
  hitsWall head = false /\
  exists s', tick 5 freed s0 [] = Some (s', []) /\ gameOver s' = true.
Proof.
  cbv zeta. split; [exact loop_reachable|].
  split; [vm_compute; reflexivity|].
  split; [split; vm_compute; reflexivity|].
  split; [vm_compute; reflexivity|].
  eexists. split; vm_compute; reflexivity.
Qed.

(** C9 as worded fails in its last part: with the current direction RIGHT
    and UP pending from a round that came too early for a tick, the intent
    LEFT leaves UP pending, and the next tick turns the snake up: the
    current direction does not persist. *)
Lemma reverse_intent_current_changes :
  let s := stateOf (play freed earlyUp_inputs earlyUp_rand) in
  reachable s /\
  currentDirection s = RIGHT /\ nextDirection s = UP /\
  intent (opposite (currentDirection s)) leftKey /\
  nextDirection (processInput leftKey s) = UP /\
  exists s',
    tick 1 freed (processInput leftKey s) [] = Some (s', []) /\
    currentDirection s' = UP /\
    currentDirection s' <> currentDirection s.
Proof.
  cbv zeta. split; [exact earlyUp_reachable|].
  split; [vm_compute; reflexivity|]. split; [vm_compute; reflexivity|].
  split; [by intros []|]. split; [vm_compute; reflexivity|].
  eexists. split; [vm_compute; reflexivity|].
  split; [vm_compute; reflexivity|]. vm_compute. discriminate.
Qed.

(** * Further properties of the simulation *)

(** ** Growth and score *)

(** The food steps leave the head where it is. *)
Lemma grow_head_position (n : nat) (v : list Square) :
  head_position (grow n v) = head_position v.
Proof.
  destruct (last v) as [tail|] eqn:E.
  - rewrite (grow_eq _ _ _ E). destruct v as [|h t]; [done|]. done.
  - unfold grow. by rewrite E.
Qed.

(** The four ways in which a tick can change segment count and score. *)
Lemma tick_increments (t : Q) (stale : glm.vec2) (s s' : State)
    (rs rs' : list N) :
  snake s <> [] ->
  tick t stale s rs = Some (s', rs') ->
  exists a b : bool,
    a = smallFoodHit (moved t s) /\
    length (snake s') =
      (length (snake s) + (if a then 25 else 0) + (if b then 75 else 0))%nat /\
    score s' = (score s + (if a then 1 else 0) + (if b then 2 else 0))%Z.
Proof.
  intros Hne Ht. apply tick_Some in Ht as (s1 & rs1 & H1 & H2).
  assert (Hm : snake (moved t s) <> []).
  { rewrite moved_snake. by apply advance_nonempty. }
  assert (Hlen : length (snake (moved t s)) = length (snake s)).
  { by rewrite moved_snake, advance_length. }
  destruct (moved_frame t s) as (Hsc & _).
  apply eatSmallFood_growth in H1 as [Hne1 H1]; [|done].
  apply eatBigFood_growth in H2; [|done].
  exists (smallFoodHit (moved t s)),
    (bigFoodHit (headRead stale (moved t s) s1) s1). split; [done|].
  destruct (smallFoodHit (moved t s)), (bigFoodHit _ s1).
  - destruct H1 as [E1 L1], H2 as [E2 L2]. rewrite E2, L2, E1, L1, Hsc, Hlen.
    split; lia.
  - destruct H1 as [E1 L1]. subst s'. rewrite E1, L1, Hsc, Hlen. split; lia.
  - subst s1. destruct H2 as [E2 L2]. rewrite E2, L2, Hsc, Hlen. split; lia.
  - subst s1 s'. rewrite Hsc, Hlen. split; lia.
Qed.

(** X1. Over a round of the loop the snake never loses a segment and the
    score never drops: both stay as they are, or they grow together by 25
    and 1 (small food), by 75 and 2 (large food), or by 100 and 3 (both in
    one tick). *)
Theorem round_growth (k : Keys) (t : Q) (stale : glm.vec2) (s s' : State)
    (out : option Z) (rs rs' : list N) :
  snake s <> [] ->
  frame k t stale s rs = Some (s', out, rs') ->
  (length (snake s') = length (snake s) /\ score s' = score s) \/
  (length (snake s') = (length (snake s) + 25)%nat /\
   score s' = (score s + 1)%Z) \/
  (length (snake s') = (length (snake s) + 75)%nat /\
   score s' = (score s + 2)%Z) \/
  (length (snake s') = (length (snake s) + 100)%nat /\
   score s' = (score s + 3)%Z).
Proof.
  intros Hne Hf. apply frame_Some in Hf as [Hu _].
  destruct (processInput_frame k s) as (Hsn & Hsc & _).
  apply update_Some in Hu as [(_ & -> & _)|(_ & _ & Ht)].
  - left. by rewrite Hsn, Hsc.
  - apply tick_increments in Ht as (a & b & _ & Hl & Hs);
      [|by rewrite Hsn].
    rewrite Hsn in Hl. rewrite Hsc in Hs. rewrite Hl, Hs.
    destruct a, b; [right; right; right|right; left|right; right; left|left];
      split; lia.
Qed.

(** X2. In every reachable state the score is not negative and bounds the
    length of the snake from both sides: 25 * score + 1 <= length and
    2 * (length - 1) <= 75 * score.  In particular the snake is never
    empty, and the score stays below a twenty-fifth of the segment
    count. *)
Theorem score_bounds_length (s : State) :
  reachable s ->
  (0 <= score s)%Z /\
  (25 * score s + 1 <= Z.of_nat (length (snake s)))%Z /\
  (2 * (Z.of_nat (length (snake s)) - 1) <= 75 * score s)%Z.
Proof.
  apply (reachable_invariant
           (fun s => (0 <= score s)%Z /\
                     (25 * score s + 1 <= Z.of_nat (length (snake s)))%Z /\
                     (2 * (Z.of_nat (length (snake s)) - 1)
                      <= 75 * score s)%Z)).
  - intros rs s0 rs' H. apply initGame_Some in H as (p & ->). simpl. lia.
  - intros k s0 H. destruct (processInput_frame k s0) as (-> & -> & _). exact H.
  - intros t stale s0 rs s' rs' (H0 & H1 & H2) _ Ht.
    assert (Hne : snake s0 <> [])
      by (destruct (snake s0); [simpl in H1; lia|done]).
    apply tick_increments in Ht as (a & b & _ & Hl & Hs); [|done].
    rewrite Hl, Hs. destruct a, b; lia.
Qed.

(** ** The counter of small foods *)

(** What a small bite does to the counter and to the flag of the large
    food. *)
Lemma afterSmallFood_counter (s : State) (p : glm.vec2) :
  smallFoodEaten (afterSmallFood s p) =
    (if (smallFoodEaten s + 1 =? 3)%Z then 0 else smallFoodEaten s + 1)%Z /\
  bigFoodOnScreen (afterSmallFood s p) =
    (if (smallFoodEaten s + 1 =? 3)%Z then true else bigFoodOnScreen s).
Proof. unfold afterSmallFood. cbv zeta. simpl. by destruct (_ =? 3)%Z. Qed.

(** X3. In every reachable state the counter of small foods eaten is 0, 1
    or 2, and it is 0 while the large food is active. *)
Theorem smallFoodEaten_range (s : State) :
  reachable s ->
  (0 <= smallFoodEaten s <= 2)%Z /\
  (bigFoodOnScreen s = true -> smallFoodEaten s = 0%Z).
Proof.
  intros Hr.
  cut (exactlyOneFood s /\ (0 <= smallFoodEaten s <= 2)%Z /\
       (bigFoodOnScreen s = true -> smallFoodEaten s = 0%Z)); [tauto|].
  revert s Hr.
  apply (reachable_invariant
           (fun s => exactlyOneFood s /\ (0 <= smallFoodEaten s <= 2)%Z /\
                     (bigFoodOnScreen s = true -> smallFoodEaten s = 0%Z))).
  - intros rs s0 rs' H. apply initGame_Some in H as (p & ->).
    split; [by left|]. simpl. split; [lia|done].
  - intros k s0 H. unfold exactlyOneFood.
    destruct (processInput_frame k s0) as (_ & _ & _ & -> & -> & -> & _).
    exact H.
  - intros t stale s0 rs s' rs' (Hone & Hc & Hb) _ Ht.
    split; [by eapply tick_exactlyOneFood|].
    apply tick_Some in Ht as (s1 & rs1 & H1 & H2).
    destruct (moved_frame t s0) as (_ & Hsm & Hbg & Hea & _).
    assert (H1' : (0 <= smallFoodEaten s1 <= 2)%Z /\
                  (bigFoodOnScreen s1 = true -> smallFoodEaten s1 = 0%Z)).
    { apply eatSmallFood_Some in H1 as [(_ & -> & _)|(Hit & p & _ & ->)].
      - by rewrite Hbg, Hea.
      - unfold smallFoodHit in Hit. apply andb_true_iff in Hit as [Hs _].
        rewrite Hsm in Hs.
        assert (Hb0 : bigFoodOnScreen s0 = false)
          by (destruct Hone as [[_ H]|[H _]]; congruence).
        destruct (afterSmallFood_counter (moved t s0) p) as [-> ->].
        rewrite Hea, Hbg.
        destruct (smallFoodEaten s0 + 1 =? 3)%Z eqn:E3.
        + split; [lia|done].
        + apply Z.eqb_neq in E3. split; [lia|]. by rewrite Hb0. }
    apply eatBigFood_Some in H2 as [(_ & -> & _)|(_ & p & _ & ->)]; [done|].
    simpl. split; [tauto|done].
Qed.

(** ** Directions *)

Lemma processInput_nextDirection (k : Keys) (s : State) :
  nextDirection (processInput k s) = nextDirection s \/
  nextDirection (processInput k s) <> opposite (currentDirection s).
Proof.
  unfold processInput.
  destruct (processCtrl_frame k (processSpace k s))
    as (_ & _ & _ & _ & _ & _ & _ & _ & _ & Hc & Hn).
  destruct (processSpace_frame k s)
    as (_ & _ & _ & _ & _ & _ & _ & _ & _ & Hc' & Hn').
  destruct (processArrows_nextDirection k (processCtrl k (processSpace k s)))
    as [E|E].
  - left. by rewrite E, Hn, Hn'.
  - right. by rewrite Hc, Hc' in E.
Qed.

(** X4. The snake never turns back on itself: over any round of a
    reachable game, whatever keys are held, the current direction does not
    become the exact reverse of what it was. *)
Theorem no_u_turn (k : Keys) (t : Q) (stale : glm.vec2) (s s' : State)
    (out : option Z) (rs rs' : list N) :
  reachable s ->
  frame k t stale s rs = Some (s', out, rs') ->
  currentDirection s' <> opposite (currentDirection s).
Proof.
  intros Hr Hf. apply reachable_no_reverse in Hr.
  apply frame_Some in Hf as [Hu _].
  destruct (processInput_frame k s)
    as (_ & _ & _ & _ & _ & _ & _ & _ & _ & Hc).
  apply update_Some in Hu as [(_ & -> & _)|(_ & _ & Ht)].
  - rewrite Hc. by destruct (currentDirection s).
  - apply tick_currentDirection in Ht. rewrite Ht.
    destruct (processInput_nextDirection k s) as [-> | H]; done.
Qed.

(** X7. A held arrow that does not ask for the reverse of the current
    direction is never lost: the pending direction then becomes a held,
    allowed arrow (the first such in the order up, down, left, right).
    When every held arrow asks for the reverse, or none is held, the
    pending direction stays as it is. *)
Theorem arrows_set_pending (k : Keys) (s : State) :
  let d' := nextDirection (processInput k s) in
  (forall a, arrow a k = true -> a <> opposite (currentDirection s) ->
     arrow d' k = true /\ d' <> opposite (currentDirection s) /\
     forall b, arrow b k = true -> b <> opposite (currentDirection s) ->
       (Direction_rank d' <= Direction_rank b)%nat) /\
  ((forall a, arrow a k = true -> a = opposite (currentDirection s)) ->
   d' = nextDirection s).
Proof.
  cbv zeta. unfold processInput.
  destruct (processCtrl_frame k (processSpace k s))
    as (_ & _ & _ & _ & _ & _ & _ & _ & _ & Hc & Hn).
  destruct (processSpace_frame k s)
    as (_ & _ & _ & _ & _ & _ & _ & _ & _ & Hc' & Hn').
  rewrite <- Hn', <- Hn, <- Hc', <- Hc.
  generalize (processCtrl k (processSpace k s)). clear. intros s.
  unfold processArrows. split.
  - intros a Ha Hna.
    destruct (currentDirection s) eqn:Ec, (KEY_UP k) eqn:Eu,
      (KEY_DOWN k) eqn:Ed, (KEY_LEFT k) eqn:El, (KEY_RIGHT k) eqn:Er;
      simpl in *;
      try (destruct a; simpl in *; congruence);
      (split; [done|]; split; [done|];
       intros b Hb Hnb; destruct b; simpl in *; try congruence; lia).
  - intros Hall.
    pose proof (Hall UP) as Hu. pose proof (Hall DOWN) as Hd.
    pose proof (Hall LEFT) as Hl. pose proof (Hall RIGHT) as Hr.
    clear Hall. simpl in Hu, Hd, Hl, Hr.
    destruct (currentDirection s), (KEY_UP k), (KEY_DOWN k), (KEY_LEFT k),
      (KEY_RIGHT k); simpl in *; try done;
      first [discriminate (Hu eq_refl) | discriminate (Hd eq_refl)
            | discriminate (Hl eq_refl) | discriminate (Hr eq_refl)].
Qed.

(** ** The speed keys *)

Lemma processSpace_flags (k : Keys) (s : State) :
  spacePressed (processSpace k s) = KEY_SPACE k /\
  ctrlPressed (processSpace k s) = ctrlPressed s.
Proof.
  unfold processSpace.
  destruct (KEY_SPACE k), (spacePressed s) eqn:E; simpl; split_ifs; done.
Qed.

Lemma processCtrl_flags (k : Keys) (s : State) :
  ctrlPressed (processCtrl k s) = KEY_LEFT_CONTROL k /\
  spacePressed (processCtrl k s) = spacePressed s.
Proof.
  unfold processCtrl.
  destruct (KEY_LEFT_CONTROL k), (ctrlPressed s) eqn:E; simpl; split_ifs; done.
Qed.

Lemma processArrows_flags (k : Keys) (s : State) :
  spacePressed (processArrows k s) = spacePressed s /\
  ctrlPressed (processArrows k s) = ctrlPressed s.
Proof. unfold processArrows. split_ifs; done. Qed.

(** X5. After the input mapper has run, each of its two flags tells
    whether its key is held, and when neither speed key is held the tick
    interval is the baseline, whatever it was before. *)
Theorem speed_flags_track_keys (k : Keys) (s : State) :
  spacePressed (processInput k s) = KEY_SPACE k /\
  ctrlPressed (processInput k s) = KEY_LEFT_CONTROL k /\
  (KEY_SPACE k = false -> KEY_LEFT_CONTROL k = false ->
   GAME_SPEED (processInput k s) = game_speed_controller).
Proof.
  unfold processInput.
  destruct (processArrows_flags k (processCtrl k (processSpace k s)))
    as [-> ->].
  destruct (processArrows_frame k (processCtrl k (processSpace k s)))
    as (_ & _ & _ & _ & _ & _ & _ & _ & _ & _ & ->).
  destruct (processCtrl_flags k (processSpace k s)) as [-> ->].
  destruct (processSpace_flags k s) as [Hs _]. rewrite Hs.
  split; [done|]. split; [done|]. intros Hk Hc.
  rewrite (proj2 (release_restores k (processSpace k s)) Hc), Hs, Hk. done.
Qed.

(** X6. A first press of left control sets the tick interval to 0.5,
    whatever the space bar does in the same round: more than forty times
    the baseline 0.012, although the key is announced as the one that
    speeds the game up. *)
Theorem ctrl_press_sets_half_second (k : Keys) (s : State) :
  KEY_LEFT_CONTROL k = true -> ctrlPressed s = false ->
  GAME_SPEED (processInput k s) = 0.5%Q /\
  ctrlPressed (processInput k s) = true /\
  (40 * game_speed_controller < GAME_SPEED (processInput k s))%Q.
Proof.
  intros Hk Hc.
  assert (E : GAME_SPEED (processInput k s) = 0.5%Q).
  { unfold processInput.
    destruct (processArrows_frame k (processCtrl k (processSpace k s)))
      as (_ & _ & _ & _ & _ & _ & _ & _ & _ & _ & ->).
    unfold processCtrl.
    rewrite Hk, (proj2 (processSpace_flags k s)), Hc. done. }
  split; [exact E|]. split.
  - unfold processInput.
    rewrite (proj2 (processArrows_flags k _)), (proj1 (processCtrl_flags k _)).
    exact Hk.
  - rewrite E. reflexivity.
Qed.

(** ** The spawner: the first valid candidate *)

Lemma candidateAt_0 (r1 r2 : N) (rest : list N) :
  candidateAt (r1 :: r2 :: rest) 0 = Some (candidate r1 r2).
Proof. reflexivity. Qed.

Lemma candidateAt_S (r1 r2 : N) (rest : list N) (n : nat) :
  candidateAt (r1 :: r2 :: rest) (S n) = candidateAt rest n.
Proof.
  unfold candidateAt.
  replace (2 * S n)%nat with (S (S (2 * n))) by lia.
  replace (S (S (2 * n)) + 1)%nat with (S (S (2 * n + 1))) by lia.
  reflexivity.
Qed.

Lemma candidateAt_Some_inv (rs : list N) (p : glm.vec2) :
  candidateAt rs 0 = Some p ->
  exists r1 r2 rest, rs = r1 :: r2 :: rest /\ p = candidate r1 r2.
Proof.
  destruct rs as [|r1 [|r2 rest]]; try discriminate.
  intros H. rewrite candidateAt_0 in H. injection H as <-. eauto.
Qed.

(** X8. The spawner returns exactly the first valid candidate of the
    supply: it returns [p] and leaves [rs'] if and only if [p] is the
    candidate of some round [n], [p] is valid, the candidates of all earlier
    rounds exist and are invalid, and [rs'] is the supply without the
    [2 * n + 2] numbers of these rounds. *)
Theorem spawn_first_valid (v : list Square) (rs rs' : list N) (p : glm.vec2) :
  spawn v rs = Some (p, rs') <->
  exists n,
    candidateAt rs n = Some p /\ validPosition v p = true /\
    rs' = drop (2 * n + 2) rs /\
    forall i, (i < n)%nat ->
      exists q, candidateAt rs i = Some q /\ validPosition v q = false.
Proof.
  split.
  - remember (length rs) as m eqn:Hm. revert rs Hm.
    induction m as [m IH] using lt_wf_ind. intros rs Hm Hs.
    destruct rs as [|r1 [|r2 rest]]; simpl in Hs; try discriminate.
    destruct (validPosition v (candidate r1 r2)) eqn:E.
    + injection Hs as <- <-. exists 0%nat.
      split; [done|]. split; [done|]. split; [done|]. lia.
    + apply (IH (length rest)) in Hs as (n & Hc & Hv & Hd & Hbefore);
        [|subst m; simpl; lia|done].
      exists (S n). rewrite candidateAt_S. split; [done|]. split; [done|].
      split.
      * rewrite Hd. replace (2 * S n + 2)%nat with (S (S (2 * n + 2))) by lia.
        done.
      * intros [|i] Hi.
        -- exists (candidate r1 r2). by rewrite candidateAt_0.
        -- rewrite candidateAt_S. apply Hbefore. lia.
  - intros (n & Hc & Hv & Hd & Hbefore). revert rs Hc Hd Hbefore.
    induction n as [|n IH]; intros rs Hc Hd Hbefore.
    + apply candidateAt_Some_inv in Hc as (r1 & r2 & rest & -> & ->).
      simpl. rewrite Hv. by rewrite Hd.
    + destruct (Hbefore 0%nat) as (q & Hq & Hbad); [lia|].
      apply candidateAt_Some_inv in Hq as (r1 & r2 & rest & -> & ->).
      simpl. rewrite Hbad. rewrite candidateAt_S in Hc. apply IH.
      * exact Hc.
      * rewrite Hd. replace (2 * S n + 2)%nat with (S (S (2 * n + 2))) by lia.
        done.
      * intros i Hi. destruct (Hbefore (S i)) as (q & Hq & Hqb); [lia|].
        rewrite candidateAt_S in Hq. eauto.
Qed.

(** ** Movement: the neck, the tail and the shape of the body *)

Lemma step_distance (d : Direction) (p : glm.vec2) :
  (glm.distance2 (move d p) p == 2.5 * 2.5)%Q.
Proof.
  unfold glm.distance2, glm.sq, move, MOVE_STRIDE.
  destruct d; simpl; ring.
Qed.

Lemma distance_self (p : glm.vec2) : (glm.distance2 p p == 0)%Q.
Proof. unfold glm.distance2, glm.sq. ring. Qed.

(** X10. After the movement of a tick the second segment sits where the
    head was and the head is exactly one step, 2.5, away from it: the test
    against the body, which asks for less than 2.5, never fires on the
    neck, and a snake of two segments cannot collide with itself. *)
Theorem neck_never_collides (d : Direction) (v : list Square) (h : Square) :
  v !! 0%nat = Some h -> (2 <= length v)%nat ->
  exists h' n',
    advance d v !! 0%nat = Some h' /\ advance d v !! 1%nat = Some n' /\
    n' = h /\
    (glm.distance2 (position h') (position n') == 2.5 * 2.5)%Q /\
    glm.distance_lt (position h') (position n') MOVE_STRIDE = false /\
    (length v = 2%nat -> selfCollision (advance d v) = false).
Proof.
  intros Hh Hlen.
  pose proof (advance_lookup_0 d v h Hh) as H0.
  pose proof (advance_lookup_succ d v 1) as H1. simpl in H1.
  rewrite Hh in H1. specialize (H1 ltac:(lia)).
  exists {| position := move d (position h); direction := d |}, h.
  split; [exact H0|]. split; [exact H1|]. split; [done|].
  pose proof (step_distance d (position h)) as Hd. simpl.
  assert (Hno : glm.distance_lt (move d (position h)) (position h)
                  MOVE_STRIDE = false).
  { apply distance_lt_false. unfold MOVE_STRIDE. rewrite Hd. lra. }
  split; [exact Hd|]. split; [exact Hno|].
  intros H2. unfold selfCollision, head_position. rewrite H0. simpl.
  pose proof (advance_length d v) as Hl. rewrite H2 in Hl.
  destruct (advance d v) as [|a [|b [|c w]]]; try discriminate.
  simpl in H1. injection H1 as ->. simpl. by rewrite Hno.
Qed.

Lemma advances_length (ds : list Direction) (v : list Square) :
  length (advances ds v) = length v.
Proof.
  revert v. induction ds as [|d ds IH]; intros v; simpl; [done|].
  by rewrite IH, advance_length.
Qed.

Lemma advances_lookup (ds : list Direction) (v : list Square) (i : nat) :
  (length ds <= i < length v)%nat ->
  advances ds v !! i = v !! (i - length ds)%nat.
Proof.
  revert v i. induction ds as [|d ds IH]; intros v i Hi; simpl in *.
  - by replace (i - 0)%nat with i by lia.
  - rewrite IH by (rewrite advance_length; lia).
    rewrite advance_lookup_succ by lia. f_equal. lia.
Qed.

(** X11. The segments a growth event appends are pulled into motion one
    per tick: after [k <= n] ticks of movement following a growth by [n],
    whatever the directions, the segment count is unchanged and every
    segment from index [length v - 1 + k] on still lies where the tail was
    when the snake grew. *)
Theorem grown_tail_stays (n : nat) (ds : list Direction) (v : list Square)
    (tail : Square) :
  last v = Some tail -> (length ds <= n)%nat ->
  length (advances ds (grow n v)) = (length v + n)%nat /\
  forall i, (length v - 1 + length ds <= i < length v + n)%nat ->
    advances ds (grow n v) !! i = Some tail.
Proof.
  intros Ht Hk. assert (Hne : v <> []) by (intros ->; discriminate).
  assert (Hlen : (1 <= length v)%nat) by (destruct v; [done|simpl; lia]).
  rewrite advances_length, grow_length by done. split; [done|].
  intros i Hi. rewrite advances_lookup by (rewrite grow_length by done; lia).
  rewrite (grow_eq _ _ _ Ht).
  destruct (decide (i - length ds < length v)%nat) as [Hin|Hout].
  - rewrite lookup_app_l by done. rewrite last_lookup in Ht.
    replace (i - length ds)%nat with (pred (length v)) by lia. exact Ht.
  - rewrite lookup_app_r by lia. apply lookup_replicate_2. lia.
Qed.

Lemma grow_elem (n : nat) (v : list Square) (seg : Square) :
  seg ∈ grow n v -> seg ∈ v.
Proof.
  destruct (last v) as [tail|] eqn:E.
  - rewrite (grow_eq _ _ _ E). intros [H|H]%elem_of_app; [done|].
    apply elem_of_replicate in H as [-> _].
    rewrite last_lookup in E. by eapply list_elem_of_lookup_2.
  - unfold grow. by rewrite E.
Qed.

Lemma advance_elem (d : Direction) (v : list Square) (seg : Square) :
  seg ∈ advance d v ->
  seg ∈ v \/
  exists h, v !! 0%nat = Some h /\
            seg = {| position := move d (position h); direction := d |}.
Proof.
  intros (i & Hi)%list_elem_of_lookup_1.
  pose proof (lookup_lt_Some _ _ _ Hi) as Hlt. rewrite advance_length in Hlt.
  destruct i as [|i].
  - right. destruct v as [|h t]; [simpl in Hlt; lia|]. exists h.
    split; [done|]. rewrite (advance_lookup_0 d (h :: t) h eq_refl) in Hi.
    by injection Hi as <-.
  - left. rewrite advance_lookup_succ in Hi by lia.
    by eapply list_elem_of_lookup_2.
Qed.

Lemma advance_chained (d : Direction) (v : list Square) :
  chained v -> chained (advance d v).
Proof.
  intros Hc i a b Ha Hb.
  pose proof (lookup_lt_Some _ _ _ Hb) as Hlt. rewrite advance_length in Hlt.
  destruct i as [|i].
  - destruct v as [|h t]; [simpl in Hlt; lia|].
    rewrite (advance_lookup_0 d (h :: t) h eq_refl) in Ha.
    rewrite advance_lookup_succ in Hb by lia. simpl in Hb.
    injection Ha as <-. injection Hb as <-. simpl.
    rewrite step_distance. lra.
  - rewrite advance_lookup_succ in Ha, Hb by lia. simpl in Ha, Hb.
    replace (i - 0)%nat with i in Ha by lia. by eapply Hc.
Qed.

Lemma grow_chained (n : nat) (v : list Square) :
  chained v -> chained (grow n v).
Proof.
  intros Hc. destruct (last v) as [tail|] eqn:E;
    [|unfold grow; by rewrite E].
  rewrite (grow_eq _ _ _ E). rewrite last_lookup in E.
  intros i a b Ha Hb.
  destruct (decide (S i < length v)%nat) as [Hin|Hout].
  - rewrite lookup_app_l in Ha, Hb by lia. by eapply Hc.
  - rewrite lookup_app_r in Hb by lia.
    apply lookup_replicate in Hb as [-> _].
    assert (a = tail) as ->.
    { destruct (decide (i < length v)%nat) as [Hi|Hi].
      - rewrite lookup_app_l in Ha by lia.
        replace i with (pred (length v)) in Ha by lia. congruence.
      - rewrite lookup_app_r in Ha by lia.
        by apply lookup_replicate in Ha as [-> _]. }
    rewrite distance_self. lra.
Qed.

(** X12. The body is in one piece: in every reachable state any two
    neighbouring segments are at most one step, 2.5, apart. *)
Theorem body_in_one_piece (s : State) :
  reachable s ->
  forall i a b,
    snake s !! i = Some a -> snake s !! S i = Some b ->
    (glm.distance2 (position a) (position b) <= 2.5 * 2.5)%Q.
Proof.
  apply (reachable_invariant (fun s => chained (snake s))).
  - intros rs s0 rs' H. apply initGame_Some in H as (p & ->).
    intros i a b Ha Hb. simpl in Hb. destruct i; discriminate.
  - intros k s0 H. by rewrite (proj1 (processInput_frame k s0)).
  - intros t stale s0 rs s' rs' H _ Ht.
    apply tick_Some in Ht as (s1 & rs1 & H1 & H2).
    apply eatSmallFood_snake in H1. apply eatBigFood_snake in H2.
    rewrite moved_snake in H1.
    assert (chained (snake s1)).
    { rewrite H1. destruct (smallFoodHit _);
        auto using grow_chained, advance_chained. }
    rewrite H2. destruct (bigFoodHit _ _); auto using grow_chained.
Qed.

(** ** Where the snake can be *)

Lemma onHalfGrid_step (q : Q) :
  onHalfGrid q -> onHalfGrid (q + MOVE_STRIDE) /\ onHalfGrid (q - MOVE_STRIDE).
Proof.
  intros [k Hk]. unfold MOVE_STRIDE. split.
  - exists (k + 5)%Z. rewrite inject_Z_plus, Hk.
    change (inject_Z 5) with 5%Q. field.
  - exists (k - 5)%Z. unfold Z.sub. rewrite inject_Z_plus, Hk.
    change (inject_Z (- (5))) with (-5)%Q. field.
Qed.

Lemma move_inArena (d : Direction) (h : Square) :
  inArena h -> hitsWall (position h) = false ->
  inArena {| position := move d (position h); direction := d |}.
Proof.
  intros (Hx & Hy & _) Hw. apply hitsWall_false in Hw.
  destruct (onHalfGrid_step _ Hx) as [Hx1 Hx2].
  destruct (onHalfGrid_step _ Hy) as [Hy1 Hy2].
  unfold inArena, move. destruct d; simpl;
    (split; [done|]; split; [done|]); unfold MOVE_STRIDE; lra.
Qed.

(** X13. In every reachable state every coordinate of every segment is a
    multiple of 0.5, with 57.5 <= x < 742.5 and 40.5 <= y < 542.5; and as
    long as the game is running the head is inside the playable
    rectangle. *)
Theorem snake_stays_in_arena (s : State) :
  reachable s ->
  (forall seg, seg ∈ snake s -> inArena seg) /\
  (gameOver s = false -> hitsWall (head_position (snake s)) = false).
Proof.
  apply (reachable_invariant
           (fun s => (forall seg, seg ∈ snake s -> inArena seg) /\
                     (gameOver s = false ->
                      hitsWall (head_position (snake s)) = false))).
  - intros rs s0 rs' H. apply initGame_Some in H as (p & ->). simpl. split.
    + intros seg Hin. apply list_elem_of_singleton in Hin as ->.
      unfold inArena. simpl. split; [by exists 800%Z|].
      split; [by exists 600%Z|].
      unfold windowWIDTH, windowHEIGHT.
      repeat split; reflexivity || discriminate.
    + reflexivity.
  - intros k s0 H.
    destruct (processInput_frame k s0) as (-> & _ & -> & _). exact H.
  - intros t stale s0 rs s' rs' [Hall Hhead] Hrun Ht.
    pose proof (tick_gameOver _ _ _ _ _ _ Ht) as Hgo.
    apply tick_Some in Ht as (s1 & rs1 & H1 & H2).
    apply eatSmallFood_snake in H1. apply eatBigFood_snake in H2.
    rewrite moved_snake in H1.
    set (w := advance (nextDirection s0) (snake s0)) in *.
    assert (Hw : forall seg, seg ∈ w -> inArena seg).
    { intros seg [Hin|(h & Hh & ->)]%advance_elem; [by apply Hall|].
      apply move_inArena.
      - apply Hall. by eapply list_elem_of_lookup_2.
      - specialize (Hhead Hrun). unfold head_position in Hhead.
        by rewrite Hh in Hhead. }
    assert (Hs1 : (forall seg, seg ∈ snake s1 -> inArena seg) /\
                  head_position (snake s1) = head_position w).
    { rewrite H1. destruct (smallFoodHit _); [|done]. split.
      - intros seg Hin%grow_elem. by apply Hw.
      - apply grow_head_position. }
    destruct Hs1 as [Hs1 Hh1].
    assert (Hs' : (forall seg, seg ∈ snake s' -> inArena seg) /\
                  head_position (snake s') = head_position w).
    { rewrite H2. destruct (bigFoodHit _ _); [|done]. split.
      - intros seg Hin%grow_elem. by apply Hs1.
      - by rewrite grow_head_position. }
    destruct Hs' as [Hs' Hh']. split; [exact Hs'|].
    intros Hrun'. rewrite Hh'. rewrite Hgo, moved_gameOver in Hrun'.
    fold w in Hrun'.
    apply orb_false_iff in Hrun' as [Hrun' _].
    by apply orb_false_iff in Hrun' as [_ Hrun'].
Qed.

(** ** Rendering *)

Lemma drawSegments_length (i : nat) (v : list Square) :
  length (drawSegments i v) = length v.
Proof.
  revert i. induction v as [|sq rest IH]; intros i; simpl; [done|].
  by rewrite IH.
Qed.

Lemma drawSegments_lookup (i j : nat) (v : list Square) :
  drawSegments i v !! j =
    (fun sq =>
       if (i + j =? 0)%nat then drawSquare sq headVAO true headTexture green
       else drawSquare sq squareVAO true bodyTexture green) <$> v !! j.
Proof.
  revert i j. induction v as [|sq rest IH]; intros i j; simpl; [done|].
  destruct j as [|j]; simpl.
  - by rewrite Nat.add_0_r.
  - rewrite IH. by replace (S i + j)%nat with (i + S j)%nat by lia.
Qed.

(** The head faces the way the snake is going. *)
Lemma reachable_head_direction (s : State) :
  reachable s ->
  exists head, snake s !! 0%nat = Some head /\
               direction head = currentDirection s.
Proof.
  apply (reachable_invariant
           (fun s => exists head, snake s !! 0%nat = Some head /\
                                  direction head = currentDirection s)).
  - intros rs s0 rs' H. apply initGame_Some in H as (p & ->). simpl. eauto.
  - intros k s0 H.
    destruct (processInput_frame k s0)
      as (-> & _ & _ & _ & _ & _ & _ & _ & _ & ->). exact H.
  - intros t stale s0 rs s' rs' (h & Hh & _) _ Ht.
    pose proof (tick_currentDirection _ _ _ _ _ _ Ht) as Hc.
    apply tick_Some in Ht as (s1 & rs1 & H1 & H2).
    apply eatSmallFood_snake in H1. apply eatBigFood_snake in H2.
    rewrite moved_snake in H1.
    pose proof (advance_lookup_0 (nextDirection s0) _ _ Hh) as H0.
    exists {| position := move (nextDirection s0) (position h);
              direction := nextDirection s0 |}.
    split; [|by rewrite Hc].
    assert (Hg : forall n v x,
               v !! 0%nat = Some x -> grow n v !! 0%nat = Some x).
    { intros n v x Hx. destruct (last v) as [tl|] eqn:E.
      - rewrite (grow_eq _ _ _ E). rewrite lookup_app_l; [done|].
        by apply lookup_lt_Some in Hx.
      - unfold grow. by rewrite E. }
    assert (snake s1 !! 0%nat = Some
              {| position := move (nextDirection s0) (position h);
                 direction := nextDirection s0 |}).
    { rewrite H1. destruct (smallFoodHit _); auto. }
    rewrite H2. destruct (bigFoodHit _ _); auto.
Qed.

Lemma reachable_exactlyOneFood (s : State) : reachable s -> exactlyOneFood s.
Proof.
  apply (reachable_invariant exactlyOneFood).
  - intros rs s0 rs' H. apply initGame_Some in H as (p & ->). by left.
  - intros k s0 H. unfold exactlyOneFood.
    destruct (processInput_frame k s0) as (_ & _ & _ & -> & -> & _). exact H.
  - intros t stale s0 rs s' rs' H _ Ht. by eapply tick_exactlyOneFood.
Qed.

(** X15. What a round of a reachable game draws: one quad per segment, in
    order, and one food quad after them.  The first quad is the head, with
    the head texture, turned the way the snake is going; the others carry
    the body texture; the food quad shows the food that is active (the one
    the simulation tests for eating), and that food lies in the field
    [100, 700] x [100, 500]. *)
Theorem render_shows_the_game (s : State) :
  reachable s ->
  length (render s) = (length (snake s) + 1)%nat /\
  (exists head,
     snake s !! 0%nat = Some head /\
     render s !! 0%nat =
       Some {| translation := position head;
               degrees := match currentDirection s with
                          | UP => 90.0
                          | DOWN => 270.0
                          | RIGHT => 0.0
                          | LEFT => 180.0
                          end;
               useTexture := true; color := green;
               texture := Some headTexture; vao := headVAO |}) /\
  (forall i seg, (1 <= i)%nat -> snake s !! i = Some seg ->
     render s !! i = Some (drawSquare seg squareVAO true bodyTexture green)) /\
  (exists food foodVAO,
     render s !! length (snake s) =
       Some (drawSquare food foodVAO true foodTexture green) /\
     inField (position food) /\
     ((smallFoodOnScreen s = true /\ bigFoodOnScreen s = false /\
       food = smallFood s /\ foodVAO = smallFoodVAO) \/
      (smallFoodOnScreen s = false /\ bigFoodOnScreen s = true /\
       food = bigFood s /\ foodVAO = bigFoodVAO))).
Proof.
  intros Hr. unfold render. split; [|split; [|split]].
  - by rewrite length_app, drawSegments_length.
  - destruct (reachable_head_direction s Hr) as (head & Hh & Hd).
    exists head. split; [done|].
    rewrite lookup_app_l
      by (rewrite drawSegments_length; by apply lookup_lt_Some in Hh).
    rewrite drawSegments_lookup, Hh. simpl. unfold drawSquare.
    rewrite Hd. by destruct (currentDirection s).
  - intros i seg Hi Hseg.
    rewrite lookup_app_l
      by (rewrite drawSegments_length; by apply lookup_lt_Some in Hseg).
    rewrite drawSegments_lookup, Hseg. simpl.
    destruct i; [lia|done].
  - pose proof (reachable_exactlyOneFood s Hr) as Hone.
    destruct (reachable_foodsInField s Hr) as [Hsf Hbf].
    rewrite lookup_app_r by (by rewrite drawSegments_length).
    rewrite drawSegments_length, Nat.sub_diag. simpl.
    destruct Hone as [[Hs Hb]|[Hs Hb]]; rewrite Hb.
    + exists (smallFood s), smallFoodVAO. split; [done|]. split; [done|].
      by left.
    + exists (bigFood s), bigFoodVAO. split; [done|]. split; [by apply Hbf|].
      by right.
Qed.

(** ** When the spawner can return *)

Lemma validPosition_far (v : list Square) (p : glm.vec2) :
  validPosition v p = true <->
  forall seg, seg ∈ v -> (20 * 20 <= glm.distance2 (position seg) p)%Q.
Proof.
  rewrite validPosition_true. split; intros H seg Hin.
  - by apply distance_lt_false, H.
  - by apply distance_lt_false, H.
Qed.

Lemma candidate_of_point (X Y : Z) :
  (100 <= X <= 700)%Z -> (100 <= Y <= 500)%Z ->
  candidate (Z.to_N (X - 100)) (Z.to_N (Y - 100)) =
    {| glm.x := inject_Z X; glm.y := inject_Z Y |}.
Proof.
  intros HX HY. rewrite candidate_eq, !Z2N.id by lia.
  rewrite !Z.rem_small by lia. f_equal; f_equal; lia.
Qed.

(** X9. The spawner can return, for some supply of random numbers, if and
    only if the field [100, 700] x [100, 500] holds a point with integer
    coordinates that is at least 20 away from every segment; every such
    point is returned at once when the oracle proposes it.  When the snake
    leaves no such point the loop never ends, whatever [rand ()] yields. *)
Theorem spawn_returns_iff_room (v : list Square) :
  ((exists rs p rs', spawn v rs = Some (p, rs')) <->
   (exists X Y : Z,
      (100 <= X <= 700)%Z /\ (100 <= Y <= 500)%Z /\
      forall seg, seg ∈ v ->
        (20 * 20 <= glm.distance2 (position seg)
                      {| glm.x := inject_Z X; glm.y := inject_Z Y |})%Q)) /\
  (forall X Y : Z,
     (100 <= X <= 700)%Z -> (100 <= Y <= 500)%Z ->
     (forall seg, seg ∈ v ->
        (20 * 20 <= glm.distance2 (position seg)
                      {| glm.x := inject_Z X; glm.y := inject_Z Y |})%Q) ->
     forall rest,
       spawn v (Z.to_N (X - 100) :: Z.to_N (Y - 100) :: rest) =
         Some ({| glm.x := inject_Z X; glm.y := inject_Z Y |}, rest)).
Proof.
  assert (Hhit : forall X Y : Z,
     (100 <= X <= 700)%Z -> (100 <= Y <= 500)%Z ->
     (forall seg, seg ∈ v ->
        (20 * 20 <= glm.distance2 (position seg)
                      {| glm.x := inject_Z X; glm.y := inject_Z Y |})%Q) ->
     forall rest,
       spawn v (Z.to_N (X - 100) :: Z.to_N (Y - 100) :: rest) =
         Some ({| glm.x := inject_Z X; glm.y := inject_Z Y |}, rest)).
  { intros X Y HX HY Hfar rest. simpl.
    rewrite candidate_of_point by done.
    by rewrite (proj2 (validPosition_far v _) Hfar). }
  split; [|exact Hhit]. split.
  - intros (rs & p & rs' & Hs).
    destruct (spawn_integer _ _ _ _ Hs) as (X & Y & -> & HX & HY).
    exists X, Y. split; [done|]. split; [done|]. by eapply spawn_far.
  - intros (X & Y & HX & HY & Hfar).
    exists [Z.to_N (X - 100); Z.to_N (Y - 100)],
      {| glm.x := inject_Z X; glm.y := inject_Z Y |}, [].
    by apply Hhit.
Qed.

(** ** Food is eaten in the tick that reaches it *)

Lemma head_position_far (v : list Square) (p : glm.vec2) :
  v <> [] ->
  (forall seg, seg ∈ v -> (20 * 20 <= glm.distance2 (position seg) p)%Q) ->
  glm.distance_lt (head_position v) p SQUARE_SIZE = false.
Proof.
  intros Hne Hfar. destruct v as [|h t]; [done|]. unfold head_position. simpl.
  apply distance_lt_false. apply Hfar. apply list_elem_of_here.
Qed.

(** X16. The small food is never left within reach: in every reachable
    state, that is between the rounds of the loop, the small-food test
    would not fire.  A small food is eaten in the very tick that brings the
    head into its range, and the one that replaces it is out of range of
    the head. *)
Theorem small_food_never_left_in_range (s : State) :
  reachable s -> smallFoodHit s = false.
Proof.
  intros Hr.
  cut (snake s <> [] /\ smallFoodHit s = false); [tauto|].
  revert s Hr.
  apply (reachable_invariant
           (fun s => snake s <> [] /\ smallFoodHit s = false)).
  - intros rs s0 rs' H. apply spawnFood_Some in H as (p & Hp & ->).
    split; [done|].
    unfold smallFoodHit. simpl.
    apply head_position_far; [done|]. by eapply spawn_far.
  - intros k s0 H. unfold smallFoodHit.
    destruct (processInput_frame k s0)
      as (-> & _ & _ & -> & _ & _ & -> & _). exact H.
  - intros t stale s0 rs s' rs' (Hne & _) _ Ht.
    apply tick_Some in Ht as (s1 & rs1 & H1 & H2).
    assert (Hm : snake (moved t s0) <> []).
    { rewrite moved_snake. by apply advance_nonempty. }
    assert (Hs1 : snake s1 <> [] /\ smallFoodHit s1 = false).
    { pose proof (eatSmallFood_growth _ _ _ _ Hm H1) as [Hne1 _].
      split; [done|].
      apply eatSmallFood_Some in H1 as [(Hno & -> & _)|(_ & p & Hp & ->)];
        [done|].
      unfold smallFoodHit, afterSmallFood. cbv zeta.
      destruct (_ =? 3)%Z; simpl; [done|].
      apply head_position_far; [by apply grow_nonempty|].
      by eapply spawn_far. }
    destruct Hs1 as [Hne1 Hsm1].
    apply eatBigFood_Some in H2 as [(Hno & -> & _)|(_ & p & Hp & ->)];
      [done|].
    pose proof (spawn_far _ _ _ _ Hp) as Hfar.
    split; [by apply grow_nonempty|].
    unfold smallFoodHit. simpl. apply head_position_far; [|done].
    by apply grow_nonempty.
Qed.

(** ** The read through [head] after the vector has moved *)

(** X21. The undefined read of [head] at line 306 is confined to one kind
    of tick: the third small bite of a cycle whose 25 pushes do not fit the
    storage of the vector.  On every other tick (no small food eaten, or
    the pushes fit, or the counter does not reach 3) the outcome does not
    depend on what a dangling read would find. *)
Theorem dangling_read_confined (t : Q) (stale stale' : glm.vec2) (s : State)
    (rs : list N) :
  exactlyOneFood s ->
  smallFoodHit (moved t s) = false \/
  reallocates (length (snake s)) 25 = false \/
  (smallFoodEaten s + 1)%Z <> 3%Z ->
  tick t stale s rs = tick t stale' s rs.
Proof.
  intros Hone Hcase. apply tick_stale. intros s1 rs1 H1.
  destruct (smallFoodHit (moved t s)) eqn:Hit;
    [|by rewrite !(headRead_silent _ _ _ Hit)].
  destruct Hcase as [Hno|[Hfit|Hcnt]]; [done| |].
  - rewrite !headRead_fits; [done|..];
      by rewrite moved_snake, advance_length.
  - destruct (moved_frame t s) as (_ & Hsm & Hbg & Hea & _).
    assert (Hb0 : bigFoodOnScreen s = false).
    { unfold smallFoodHit in Hit. apply andb_true_iff in Hit as [Hs _].
      rewrite Hsm in Hs. destruct Hone as [[_ H]|[H _]]; congruence. }
    apply eatSmallFood_Some in H1 as [(Hno & _)|(_ & p & _ & ->)];
      [congruence|].
    apply Z.eqb_neq in Hcnt. unfold bigFoodHit.
    by rewrite (proj2 (afterSmallFood_counter _ _)), Hea, Hcnt, Hbg, Hb0.
Qed.

(** ** The theorems at concrete inputs *)

(** C6 at a snake of two segments that turns up. *)
Lemma advance_spec_witness :
  (1 <= length twoSquares)%nat /\
  length (advance UP twoSquares) = length twoSquares /\
  (forall i, (1 <= i < length twoSquares)%nat ->
     advance UP twoSquares !! i = twoSquares !! (i - 1)%nat) /\
  (exists head head',
     twoSquares !! 0%nat = Some head /\
     advance UP twoSquares !! 0%nat = Some head' /\
     direction head' = UP /\
     glm.x (position head') = glm.x (position head) /\
     glm.y (position head') = (glm.y (position head) + 2.5)%Q).
Proof.
  assert (H : (1 <= length twoSquares)%nat) by (simpl; lia).
  split; [exact H|]. exact (advance_spec UP twoSquares H).
Defined.

(** C7 at the growth by 25 of a snake of two segments. *)
Lemma grow_spec_witness :
  last twoSquares =
    Some {| position := {| glm.x := 397.5; glm.y := 300 |};
            direction := RIGHT |} /\
  length (grow 25 twoSquares) = (length twoSquares + 25)%nat /\
  (forall i, (i < length twoSquares)%nat ->
     grow 25 twoSquares !! i = twoSquares !! i) /\
  (forall i, (length twoSquares <= i < length twoSquares + 25)%nat ->
     grow 25 twoSquares !! i =
       Some {| position := {| glm.x := 397.5; glm.y := 300 |};
               direction := RIGHT |}).
Proof.
  assert (H : last twoSquares =
              Some {| position := {| glm.x := 397.5; glm.y := 300 |};
                      direction := RIGHT |}) by reflexivity.
  split; [exact H|]. exact (grow_spec 25 twoSquares _ H).
Defined.

(** C8 at a spawn that succeeds with its first candidate, (420,300). *)
Lemma spawn_spec_witness :
  let p := {| glm.x := inject_Z 420; glm.y := inject_Z 300 |} in
  spawn twoSquares [320; 200]%N = Some (p, []) /\
  (exists X Y : Z,
     p = {| glm.x := inject_Z X; glm.y := inject_Z Y |} /\
     (100 <= X <= 700)%Z /\ (100 <= Y <= 500)%Z) /\
  (forall dx dy : Q,
     (- SQUARE_SIZE <= dx <= SQUARE_SIZE)%Q ->
     (- SQUARE_SIZE <= dy <= SQUARE_SIZE)%Q ->
     hitsWall {| glm.x := glm.x p + dx; glm.y := glm.y p + dy |} = false) /\
  (forall seg, seg ∈ twoSquares ->
     (20 * 20 <= glm.distance2 (position seg) p)%Q).
Proof.
  cbv zeta.
  assert (H : spawn twoSquares [320; 200]%N =
              Some ({| glm.x := inject_Z 420; glm.y := inject_Z 300 |}, []))
    by (vm_compute; reflexivity).
  split; [exact H|]. exact (spawn_spec twoSquares _ _ _ H).
Defined.

(** C3 at the state after seven ticks of the second cycle and at the tick
    in which both foods are eaten. *)
Lemma exactly_one_food_active_witness :
  let s := stateOf (play freed secondCycle_inputs secondCycle_rand) in
  let rs := restOf (play freed secondCycle_inputs secondCycle_rand) in
  let r := tick 8 freed s rs in
  reachable s /\ exactlyOneFood s /\
  r = Some (stateOf r, restOf r) /\ exactlyOneFood (stateOf r).
Proof.
  cbv zeta.
  set (s := stateOf (play freed secondCycle_inputs secondCycle_rand)).
  set (rs := restOf (play freed secondCycle_inputs secondCycle_rand)).
  pose proof (proj1 exactly_one_food_active s secondCycle_reachable) as H1.
  assert (H2 : tick 8 freed s rs =
               Some (stateOf (tick 8 freed s rs), restOf (tick 8 freed s rs)))
    by (vm_compute; reflexivity).
  split; [exact secondCycle_reachable|]. split; [exact H1|].
  split; [exact H2|].
  exact (proj2 exactly_one_food_active 8%Q freed s rs _ _ H1 H2).
Defined.

(** C5, as amended, at the tick in which the snake closes its square, and
    at the round after it. *)
Lemma gameOver_exactly_when_witness :
  let s := processInput rightKey (stateOf (play freed loop_inputs loop_rand)) in
  let r := tick 5 freed s [] in
  let v := advance (nextDirection s) (snake s) in
  let head := head_position v in
  gameOver s = false /\ r = Some (stateOf r, restOf r) /\
  (gameOver (stateOf r) = true <->
     ((glm.x head < 60 \/ 740 <= glm.x head \/
       glm.y head < 60 - 17 \/ 540 <= glm.y head)%Q \/
      touchesBody v)) /\
  gameOver (stateOf r) = true /\
  update 6 freed (stateOf r) [] = Some (stateOf r, []).
Proof.
  cbv zeta.
  set (s := processInput rightKey (stateOf (play freed loop_inputs loop_rand))).
  assert (H1 : gameOver s = false) by (vm_compute; reflexivity).
  assert (H2 : tick 5 freed s [] =
               Some (stateOf (tick 5 freed s []), restOf (tick 5 freed s [])))
    by (vm_compute; reflexivity).
  assert (H3 : gameOver (stateOf (tick 5 freed s [])) = true)
    by (vm_compute; reflexivity).
  split; [exact H1|]. split; [exact H2|].
  split; [exact (proj1 gameOver_exactly_when 5%Q freed s [] _ _ H1 H2)|].
  split; [exact H3|].
  exact (proj2 gameOver_exactly_when 6%Q freed _ [] H3).
Defined.

(** C9, as amended, at the state with RIGHT current and UP pending, for the
    intent LEFT. *)
Lemma reverse_intent_keeps_pending_witness :
  let s := stateOf (play freed earlyUp_inputs earlyUp_rand) in
  reachable s /\
  intent (opposite (currentDirection s)) leftKey /\
  nextDirection (processInput leftKey s) = nextDirection s /\
  nextDirection s <> opposite (currentDirection s) /\
  (forall t stale rs s' rs',
     tick t stale (processInput leftKey s) rs = Some (s', rs') ->
     currentDirection s' = nextDirection s /\
     (currentDirection s' = currentDirection s <->
      nextDirection s = currentDirection s)).
Proof.
  cbv zeta.
  assert (H : intent
                (opposite
                   (currentDirection
                      (stateOf (play freed earlyUp_inputs earlyUp_rand))))
                leftKey) by (intros []; reflexivity).
  split; [exact earlyUp_reachable|]. split; [exact H|].
  exact (reverse_intent_keeps_pending _ leftKey earlyUp_reachable H).
Defined.

(** C10 at a reachable round: the head runs into the fourth segment at
    (405,300), 39.6 from the large food at (377,272); the snake grows by 75
    and the round reports the score with the 2 points added. *)
Lemma fatal_tick_still_eats_witness :
  let s := stateOf (play freed lastBite_inputs lastBite_rand) in
  let rs := restOf (play freed lastBite_inputs lastBite_rand) in
  let r := frame downKey 6 freed s rs in
  let m := moved 6 (processInput downKey s) in
  reachable s /\ gameOver s = false /\
  r = Some (roundOf r, restOf r) /\
  hitsWall (head_position (snake m)) = false /\
  selfCollision (snake m) = true /\
  smallFoodHit m = false /\
  bigFoodHit (head_position (snake m)) m = true /\
  gameOver (fst (roundOf r)) = true /\
  snd (roundOf r) = Some (score (fst (roundOf r))) /\
  score (fst (roundOf r)) = (score s + 2)%Z /\
  length (snake (fst (roundOf r))) = (length (snake s) + 75)%nat.
Proof.
  cbv zeta.
  set (s := stateOf (play freed lastBite_inputs lastBite_rand)).
  set (rs := restOf (play freed lastBite_inputs lastBite_rand)).
  assert (Hne : snake s <> [])
    by (apply reachable_nonempty, lastBite_reachable).
  assert (Hrun : gameOver s = false) by (vm_compute; reflexivity).
  assert (Hdue : Qgeb (6 - lastMoveTime s)
                   (GAME_SPEED (processInput downKey s)) = true)
    by (vm_compute; reflexivity).
  assert (Hf : frame downKey 6 freed s rs =
               Some (fst (roundOf (frame downKey 6 freed s rs)),
                     snd (roundOf (frame downKey 6 freed s rs)),
                     restOf (frame downKey 6 freed s rs)))
    by (vm_compute; reflexivity).
  assert (Hself : selfCollision (snake (moved 6 (processInput downKey s))) =
                  true) by (vm_compute; reflexivity).
  assert (Hsmall : smallFoodHit (moved 6 (processInput downKey s)) = false)
    by (vm_compute; reflexivity).
  assert (Hbig : bigFoodHit
                   (head_position (snake (moved 6 (processInput downKey s))))
                   (moved 6 (processInput downKey s)) = true)
    by (vm_compute; reflexivity).
  destruct (fatal_tick_still_eats downKey 6%Q freed s _ _ rs _ Hne Hrun Hdue Hf
              (or_intror Hself)) as (Hover & Hout & _ & Heat).
  destruct (Heat Hsmall Hbig) as [Hscore Hlen].
  split; [exact lastBite_reachable|]. split; [exact Hrun|].
  split; [vm_compute; reflexivity|]. split; [vm_compute; reflexivity|].
  split; [exact Hself|]. split; [exact Hsmall|]. split; [exact Hbig|].
  split; [exact Hover|]. split; [exact Hout|]. split; [exact Hscore|].
  exact Hlen.
Defined.

(** ** The further properties at concrete inputs *)

Lemma wallRun_reachable : reachable wallRun_state.
Proof.
  apply (play_reachable freed wallRun_inputs _ wallRun_rand
           (restOf (play freed wallRun_inputs wallRun_rand))).
  vm_compute. reflexivity.
Qed.

Lemma lastBite_round_eq :
  frame downKey 6 freed lastBite_state lastBite_rest =
    Some (fst lastBite_round, snd lastBite_round, []).
Proof. vm_compute. reflexivity. Qed.

(** X1 at the round in which the snake eats the large food. *)
Lemma round_growth_witness :
  snake lastBite_state <> [] /\
  frame downKey 6 freed lastBite_state lastBite_rest =
    Some (fst lastBite_round, snd lastBite_round, []) /\
  ((length (snake (fst lastBite_round)) = length (snake lastBite_state) /\
    score (fst lastBite_round) = score lastBite_state) \/
   (length (snake (fst lastBite_round)) =
      (length (snake lastBite_state) + 25)%nat /\
    score (fst lastBite_round) = (score lastBite_state + 1)%Z) \/
   (length (snake (fst lastBite_round)) =
      (length (snake lastBite_state) + 75)%nat /\
    score (fst lastBite_round) = (score lastBite_state + 2)%Z) \/
   (length (snake (fst lastBite_round)) =
      (length (snake lastBite_state) + 100)%nat /\
    score (fst lastBite_round) = (score lastBite_state + 3)%Z)).
Proof.
  assert (H : snake lastBite_state <> []) by (vm_compute; discriminate).
  split; [exact H|]. split; [exact lastBite_round_eq|].
  exact (round_growth downKey 6%Q freed _ _ _ _ _ H lastBite_round_eq).
Defined.

(** X2 after three bites: score 3, 76 segments. *)
Lemma score_bounds_length_witness :
  reachable lastBite_state /\
  (0 <= score lastBite_state)%Z /\
  (25 * score lastBite_state + 1
   <= Z.of_nat (length (snake lastBite_state)))%Z /\
  (2 * (Z.of_nat (length (snake lastBite_state)) - 1)
   <= 75 * score lastBite_state)%Z.
Proof.
  split; [exact lastBite_reachable|].
  exact (score_bounds_length _ lastBite_reachable).
Defined.

(** X3 while the large food is active. *)
Lemma smallFoodEaten_range_witness :
  reachable lastBite_state /\
  (0 <= smallFoodEaten lastBite_state <= 2)%Z /\
  (bigFoodOnScreen lastBite_state = true ->
   smallFoodEaten lastBite_state = 0%Z).
Proof.
  split; [exact lastBite_reachable|].
  exact (smallFoodEaten_range _ lastBite_reachable).
Defined.

(** X4 at the round in which the snake, going left, is told to go down. *)
Lemma no_u_turn_witness :
  reachable lastBite_state /\
  frame downKey 6 freed lastBite_state lastBite_rest =
    Some (fst lastBite_round, snd lastBite_round, []) /\
  currentDirection (fst lastBite_round)
  <> opposite (currentDirection lastBite_state).
Proof.
  split; [exact lastBite_reachable|]. split; [exact lastBite_round_eq|].
  exact (no_u_turn downKey 6%Q freed lastBite_state _ _ _ _
           lastBite_reachable lastBite_round_eq).
Defined.

(** X5 with no key held. *)
Lemma speed_flags_track_keys_witness :
  KEY_SPACE noKeys = false /\ KEY_LEFT_CONTROL noKeys = false /\
  spacePressed (processInput noKeys lastBite_state) = KEY_SPACE noKeys /\
  ctrlPressed (processInput noKeys lastBite_state) = KEY_LEFT_CONTROL noKeys /\
  GAME_SPEED (processInput noKeys lastBite_state) = game_speed_controller.
Proof.
  destruct (speed_flags_track_keys noKeys lastBite_state) as (H1 & H2 & H3).
  split; [reflexivity|]. split; [reflexivity|]. split; [exact H1|].
  split; [exact H2|]. exact (H3 eq_refl eq_refl).
Defined.

(** X6 at a first press of left control. *)
Lemma ctrl_press_sets_half_second_witness :
  KEY_LEFT_CONTROL ctrlKey = true /\ ctrlPressed lastBite_state = false /\
  GAME_SPEED (processInput ctrlKey lastBite_state) = 0.5%Q /\
  ctrlPressed (processInput ctrlKey lastBite_state) = true /\
  (40 * game_speed_controller
   < GAME_SPEED (processInput ctrlKey lastBite_state))%Q.
Proof.
  assert (H1 : KEY_LEFT_CONTROL ctrlKey = true) by reflexivity.
  assert (H2 : ctrlPressed lastBite_state = false) by (vm_compute; reflexivity).
  split; [exact H1|]. split; [exact H2|].
  exact (ctrl_press_sets_half_second ctrlKey lastBite_state H1 H2).
Defined.

(** X7 with the snake going left: the down arrow is taken, and with no
    arrow held the pending direction stays. *)
Lemma arrows_set_pending_witness :
  arrow DOWN downKey = true /\
  DOWN <> opposite (currentDirection lastBite_state) /\
  arrow (nextDirection (processInput downKey lastBite_state)) downKey = true /\
  nextDirection (processInput noKeys lastBite_state)
  = nextDirection lastBite_state.
Proof.
  assert (H1 : arrow DOWN downKey = true) by reflexivity.
  assert (H2 : DOWN <> opposite (currentDirection lastBite_state))
    by (vm_compute; discriminate).
  assert (H3 : forall a, arrow a noKeys = true ->
                         a = opposite (currentDirection lastBite_state))
    by (intros [] H; discriminate H).
  split; [exact H1|]. split; [exact H2|]. split.
  - exact (proj1 (proj1 (arrows_set_pending downKey lastBite_state)
                    DOWN H1 H2)).
  - exact (proj2 (arrows_set_pending noKeys lastBite_state) H3).
Defined.

(** X8 at a supply whose first candidate, (400,300), lies on the snake and
    whose second, (420,300), is valid. *)
Lemma spawn_first_valid_witness :
  spawn twoSquares [300; 200; 320; 200; 7]%N =
    Some ({| glm.x := inject_Z 420; glm.y := inject_Z 300 |}, [7%N]) /\
  exists n,
    candidateAt [300; 200; 320; 200; 7]%N n =
      Some {| glm.x := inject_Z 420; glm.y := inject_Z 300 |} /\
    validPosition twoSquares {| glm.x := inject_Z 420; glm.y := inject_Z 300 |}
    = true /\
    [7%N] = drop (2 * n + 2) [300; 200; 320; 200; 7]%N /\
    forall i, (i < n)%nat ->
      exists q, candidateAt [300; 200; 320; 200; 7]%N i = Some q /\
                validPosition twoSquares q = false.
Proof.
  assert (H : spawn twoSquares [300; 200; 320; 200; 7]%N =
              Some ({| glm.x := inject_Z 420; glm.y := inject_Z 300 |}, [7%N]))
    by (vm_compute; reflexivity).
  split; [exact H|]. exact (proj1 (spawn_first_valid _ _ _ _) H).
Defined.

(** X9 at a snake of two segments and the free point (420,300). *)
Lemma spawn_returns_iff_room_witness :
  (100 <= 420 <= 700)%Z /\ (100 <= 300 <= 500)%Z /\
  (forall seg, seg ∈ twoSquares ->
     (20 * 20 <= glm.distance2 (position seg)
                   {| glm.x := inject_Z 420; glm.y := inject_Z 300 |})%Q) /\
  spawn twoSquares (Z.to_N (420 - 100) :: Z.to_N (300 - 100) :: [])
  = Some ({| glm.x := inject_Z 420; glm.y := inject_Z 300 |}, []).
Proof.
  assert (H1 : (100 <= 420 <= 700)%Z) by lia.
  assert (H2 : (100 <= 300 <= 500)%Z) by lia.
  assert (H3 : forall seg, seg ∈ twoSquares ->
     (20 * 20 <= glm.distance2 (position seg)
                   {| glm.x := inject_Z 420; glm.y := inject_Z 300 |})%Q).
  { apply validPosition_far. vm_compute. reflexivity. }
  split; [exact H1|]. split; [exact H2|]. split; [exact H3|].
  exact (proj2 (spawn_returns_iff_room twoSquares) 420%Z 300%Z H1 H2 H3 []).
Defined.

(** X10 at a snake of two segments that turns up. *)
Lemma neck_never_collides_witness :
  twoSquares !! 0%nat =
    Some {| position := {| glm.x := 400; glm.y := 300 |};
            direction := RIGHT |} /\
  (2 <= length twoSquares)%nat /\
  selfCollision (advance UP twoSquares) = false.
Proof.
  assert (H1 : twoSquares !! 0%nat =
               Some {| position := {| glm.x := 400; glm.y := 300 |};
                       direction := RIGHT |}) by reflexivity.
  assert (H2 : (2 <= length twoSquares)%nat) by (simpl; lia).
  split; [exact H1|]. split; [exact H2|].
  destruct (neck_never_collides UP twoSquares _ H1 H2)
    as (h' & n' & _ & _ & _ & _ & _ & H).
  exact (H eq_refl).
Defined.

(** X11 at a growth by 25 followed by two ticks. *)
Lemma grown_tail_stays_witness :
  last twoSquares =
    Some {| position := {| glm.x := 397.5; glm.y := 300 |};
            direction := RIGHT |} /\
  (length [UP; LEFT] <= 25)%nat /\
  length (advances [UP; LEFT] (grow 25 twoSquares))
  = (length twoSquares + 25)%nat /\
  forall i, (length twoSquares - 1 + length [UP; LEFT] <= i
             < length twoSquares + 25)%nat ->
    advances [UP; LEFT] (grow 25 twoSquares) !! i =
      Some {| position := {| glm.x := 397.5; glm.y := 300 |};
              direction := RIGHT |}.
Proof.
  assert (H1 : last twoSquares =
               Some {| position := {| glm.x := 397.5; glm.y := 300 |};
                       direction := RIGHT |}) by reflexivity.
  assert (H2 : (length [UP; LEFT] <= 25)%nat) by (simpl; lia).
  split; [exact H1|]. split; [exact H2|].
  exact (grown_tail_stays 25 [UP; LEFT] twoSquares _ H1 H2).
Defined.

(** X12 after three bites and two turns. *)
Lemma body_in_one_piece_witness :
  reachable lastBite_state /\
  forall i a b,
    snake lastBite_state !! i = Some a ->
    snake lastBite_state !! S i = Some b ->
    (glm.distance2 (position a) (position b) <= 2.5 * 2.5)%Q.
Proof.
  split; [exact lastBite_reachable|].
  exact (body_in_one_piece _ lastBite_reachable).
Defined.

(** X13 after three bites and two turns. *)
Lemma snake_stays_in_arena_witness :
  reachable lastBite_state /\
  (forall seg, seg ∈ snake lastBite_state -> inArena seg) /\
  (gameOver lastBite_state = false ->
   hitsWall (head_position (snake lastBite_state)) = false).
Proof.
  split; [exact lastBite_reachable|].
  exact (snake_stays_in_arena _ lastBite_reachable).
Defined.

(** X14 at the tick that takes the head from (400,537.5) into the top
    wall. *)
Lemma wall_fatal_tick_eats_nothing_witness :
  reachable wallRun_state /\
  hitsWall (head_position
              (snake (moved 96 (processInput upKey wallRun_state)))) = true /\
  smallFoodHit (moved 96 (processInput upKey wallRun_state)) = false /\
  bigFoodHit
    (head_position (snake (moved 96 (processInput upKey wallRun_state))))
    (moved 96 (processInput upKey wallRun_state)) = false.
Proof.
  assert (H : hitsWall (head_position
                (snake (moved 96 (processInput upKey wallRun_state)))) = true)
    by (vm_compute; reflexivity).
  split; [exact wallRun_reachable|]. split; [exact H|].
  exact (wall_fatal_tick_eats_nothing upKey 96%Q _ wallRun_reachable H).
Defined.

(** X15 after three bites: 76 segment quads and the large food. *)
Lemma render_shows_the_game_witness :
  reachable lastBite_state /\
  length (render lastBite_state) = (length (snake lastBite_state) + 1)%nat /\
  exists food foodVAO,
    render lastBite_state !! length (snake lastBite_state) =
      Some (drawSquare food foodVAO true foodTexture green) /\
    inField (position food).
Proof.
  split; [exact lastBite_reachable|].
  destruct (render_shows_the_game _ lastBite_reachable)
    as (H1 & _ & _ & food & foodVAO & H2 & H3 & _).
  split; [exact H1|]. exists food, foodVAO. split; [exact H2|exact H3].
Defined.

(** X16 after three bites and two turns. *)
Lemma small_food_never_left_in_range_witness :
  reachable lastBite_state /\ smallFoodHit lastBite_state = false.
Proof.
  split; [exact lastBite_reachable|].
  exact (small_food_never_left_in_range _ lastBite_reachable).
Defined.

(** X17 at the tick in which the snake eats the large food. *)
Lemma large_food_tick_witness :
  let s := processInput downKey lastBite_state in
  snake s <> [] /\ exactlyOneFood s /\ bigFoodOnScreen s = true /\
  tick 6 freed s lastBite_rest = Some (fst lastBite_round, []) /\
  smallFoodHit (moved 6 s) = false /\
  bigFoodHit (head_position (snake (moved 6 s))) (moved 6 s) = true /\
  score (fst lastBite_round) = (score s + 2)%Z /\
  length (snake (fst lastBite_round)) = (length (snake s) + 75)%nat /\
  smallFoodOnScreen (fst lastBite_round) = true /\
  bigFoodOnScreen (fst lastBite_round) = false.
Proof.
  cbv zeta.
  set (s := processInput downKey lastBite_state).
  assert (H1 : snake s <> []) by (vm_compute; discriminate).
  assert (H2 : exactlyOneFood s) by (right; split; vm_compute; reflexivity).
  assert (H3 : bigFoodOnScreen s = true) by (vm_compute; reflexivity).
  assert (H4 : tick 6 freed s lastBite_rest = Some (fst lastBite_round, []))
    by (vm_compute; reflexivity).
  assert (H5 : bigFoodHit (head_position (snake (moved 6 s))) (moved 6 s)
               = true) by (vm_compute; reflexivity).
  pose proof (large_food_tick 6%Q freed s _ lastBite_rest _ H1 H2 H3 H4)
    as [H6 H7].
  rewrite H5 in H7.
  split; [exact H1|]. split; [exact H2|]. split; [exact H3|].
  split; [exact H4|]. split; [exact H6|]. split; [exact H5|]. exact H7.
Defined.

(** X18 at the eighth tick of the second cycle. *)
Lemma both_fire_only_on_third_witness :
  let s := processInput noKeys secondCycle_state in
  let m := moved 8 s in
  let s1 := stateOf (eatSmallFood m secondCycle_rest) in
  snake s <> [] /\ exactlyOneFood s /\ smallFoodHit m = true /\
  eatSmallFood m secondCycle_rest = Some (s1, [0; 0]%N) /\
  bigFoodHit (head_position (snake s1)) s1 = true /\
  (smallFoodEaten s + 1)%Z = 3%Z /\
  (glm.distance2 (head_position (snake s1)) (position (bigFood s1))
   < 40 * 40)%Q /\
  (20 * 20
   <= glm.distance2 (head_position (snake s1)) (position (bigFood s1)))%Q.
Proof.
  cbv zeta.
  set (s := processInput noKeys secondCycle_state).
  set (s1 := stateOf (eatSmallFood (moved 8 s) secondCycle_rest)).
  assert (H1 : snake s <> []) by (vm_compute; discriminate).
  assert (H2 : exactlyOneFood s) by (left; split; vm_compute; reflexivity).
  assert (H3 : smallFoodHit (moved 8 s) = true) by (vm_compute; reflexivity).
  assert (H4 : eatSmallFood (moved 8 s) secondCycle_rest =
               Some (s1, [0; 0]%N)) by (vm_compute; reflexivity).
  assert (H5 : bigFoodHit (head_position (snake s1)) s1 = true)
    by (vm_compute; reflexivity).
  pose proof (both_fire_only_on_third 8%Q (head_position (snake s1)) s s1
                secondCycle_rest _ H1 H2 H3 H4 H5) as (H6 & H7 & H8).
  split; [exact H1|]. split; [exact H2|]. split; [exact H3|].
  split; [exact H4|]. split; [exact H5|]. split; [exact H6|].
  split; [exact H7|exact H8].
Defined.

(** X19 at a fresh game whose small food lies at (420,300). *)
Lemma fresh_game_first_bite_witness :
  let s := stateOf (initGame [320; 200; 323; 200]%N) in
  let r := tick 1 freed (processInput noKeys s) [323; 200]%N in
  initGame [320; 200; 323; 200]%N = Some (s, [323; 200]%N) /\
  smallFoodHit (moved 1 (processInput noKeys s)) = true /\
  r = Some (stateOf r, []) /\
  score (stateOf r) = 1%Z /\ length (snake (stateOf r)) = 26%nat /\
  smallFoodEaten (stateOf r) = 1%Z /\
  smallFoodOnScreen (stateOf r) = true /\
  bigFoodOnScreen (stateOf r) = false /\
  (forall seg, seg ∈ snake (stateOf r) ->
     (20 * 20
      <= glm.distance2 (position seg) (position (smallFood (stateOf r))))%Q).
Proof.
  cbv zeta.
  set (s := stateOf (initGame [320; 200; 323; 200]%N)).
  set (r := tick 1 freed (processInput noKeys s) [323; 200]%N).
  assert (H1 : initGame [320; 200; 323; 200]%N = Some (s, [323; 200]%N))
    by (vm_compute; reflexivity).
  assert (H2 : smallFoodHit (moved 1 (processInput noKeys s)) = true)
    by (vm_compute; reflexivity).
  assert (H3 : r = Some (stateOf r, [])) by (vm_compute; reflexivity).
  split; [exact H1|]. split; [exact H2|]. split; [exact H3|].
  exact (fresh_game_first_bite noKeys 1%Q freed s (stateOf r) _ _ _
           H1 H2 H3).
Defined.


(** X21 at the eighth tick of the second cycle, whose pushes fit. *)
Lemma dangling_read_confined_witness :
  exactlyOneFood (processInput noKeys secondCycle_state) /\
  reallocates (length (snake (processInput noKeys secondCycle_state))) 25
  = false /\
  forall stale,
    tick 8 stale (processInput noKeys secondCycle_state) secondCycle_rest =
    tick 8 freed (processInput noKeys secondCycle_state) secondCycle_rest.
Proof.
  assert (H1 : exactlyOneFood (processInput noKeys secondCycle_state))
    by (left; split; vm_compute; reflexivity).
  assert (H2 : reallocates
                 (length (snake (processInput noKeys secondCycle_state))) 25
               = false) by (vm_compute; reflexivity).
  split; [exact H1|]. split; [exact H2|]. intros stale.
  exact (dangling_read_confined 8%Q stale freed
           (processInput noKeys secondCycle_state) secondCycle_rest H1
           (or_intror (or_introl H2))).
Defined.
